(** * csuite: the growable byte buffer (engine/main/buffer.c) and the AEAD
      mode table (engine/main/ciphers/aead.c)

    A shallow embedding of the C sources.  [size_t] values are integers in
    [0, 2^64) with the wrap-around of unsigned arithmetic written out, byte
    blocks are lists of bytes, a possibly-NULL pointer is an [option], and the
    C heap is an explicit state threaded through every allocating call. *)

From Stdlib Require Import String Ascii ZArith List Bool Lia.
From coqutil Require Import Byte Word.LittleEndianList Z.bitblast Z.prove_Zeq_bitwise.
Import ListNotations.
Local Open Scope Z_scope.

(** ** C integer types *)

Definition SIZE_WIDTH : Z := 64.
Definition size_t_wrap (z : Z) : Z := z mod 2 ^ SIZE_WIDTH.
Definition is_size_t (z : Z) : Prop := 0 <= z < 2 ^ SIZE_WIDTH.

Definition INT_MAX : Z := 2 ^ 31 - 1.
Definition INT_MIN : Z := - 2 ^ 31.

(** [(int) z] for an unsigned [z]: the two's complement reading of the low
    32 bits, as every ABI with a 32-bit [int] converts it. *)
Definition to_int (z : Z) : Z := (z + 2 ^ 31) mod 2 ^ 32 - 2 ^ 31.

Definition wrap16 (z : Z) : Z := z mod 2 ^ 16.
Definition wrap32 (z : Z) : Z := z mod 2 ^ 32.
Definition wrap64 (z : Z) : Z := z mod 2 ^ 64.

(** ** buffer.h *)

Definition CBUFFER_DEFAULT_CAPACITY : Z := 0x40.
Definition CBUFFER_GROWTH_FACTOR : Z := 0x2.

(** [sizeof(CBuffer)]: two [size_t] fields and a pointer. *)
Definition sizeof_CBuffer : Z := 24.

Record CBuffer := mkCBuffer {
  byte_length : Z;
  capacity : Z;
  data : list byte   (* the block [data] points to, [capacity] bytes long *)
}.

(** ** The heap

    [malloc] and [realloc] may fail at any call: [outcomes] lists the results
    of the coming allocation requests (a request past the end of the list
    succeeds).  [garbage] is the indeterminate content of fresh memory, and
    [corrupted] records that some [memcpy] has left the block it was given.
    [free] and the messages [perror] prints are not tracked. *)

Record Heap := mkHeap {
  outcomes : list bool;
  garbage : nat -> byte;
  corrupted : bool
}.

Definition M (A : Type) : Type := Heap -> A * Heap.

Definition ret {A} (a : A) : M A := fun h => (a, h).
Definition bind {A B} (c : M A) (k : A -> M B) : M B :=
  fun h => let (a, h') := c h in k a h'.

Notation "x <- c ;; k" := (bind c (fun x => k))
  (at level 61, c at next level, right associativity).

Definition next_request : M bool := fun h =>
  match outcomes h with
  | [] => (true, h)
  | ok :: rest => (ok, mkHeap rest (garbage h) (corrupted h))
  end.

Definition fresh (h : Heap) (from count : nat) : list byte :=
  map (garbage h) (seq from count).

Definition malloc (n : Z) : M (option (list byte)) := fun h =>
  let (ok, h') := next_request h in
  (if ok then Some (fresh h 0 (Z.to_nat n)) else None, h').

(** [realloc(block, n)]: on success the new block keeps the old content up to
    the smaller of the two sizes; on failure the old block is untouched. *)
Definition realloc (block : list byte) (n : Z) : M (option (list byte)) := fun h =>
  let (ok, h') := next_request h in
  (if ok
   then Some (firstn (Z.to_nat n) block
              ++ fresh h (length block) (Z.to_nat n - length block))
   else None, h').

(** [memcpy(dst + off, src, n)] on the block [dst].  The flag tells whether
    the whole access stayed inside both blocks.  A copy that does not is
    undefined in C: the block computed for it stands for nothing, and
    [observe] below discards whatever a run computes after such a copy. *)
Definition memcpy (dst : list byte) (off : Z) (src : list byte) (n : Z)
  : list byte * bool :=
  let room := Z.of_nat (length dst) - off in
  let inside := firstn (Z.to_nat (Z.min n room)) src in
  (firstn (Z.to_nat off) dst ++ inside
     ++ skipn (Z.to_nat off + length inside) dst,
   (n <=? room) && (n <=? Z.of_nat (length src))).

Arguments memcpy : simpl never.

Definition memcpy_heap (dst : list byte) (off : Z) (src : list byte) (n : Z)
  : M (list byte) := fun h =>
  let (blk, inb) := memcpy dst off src n in
  (blk, mkHeap (outcomes h) (garbage h) (corrupted h || negb inb)).

(** ** buffer.c: construction *)

Definition cbuffer_alloc (capacity : Z) : M (option CBuffer) :=
  buffer <- malloc sizeof_CBuffer ;;
  match buffer with
  | None => ret None
  | Some _ =>
      let cap := if 0 <? capacity then capacity else CBUFFER_DEFAULT_CAPACITY in
      blk <- malloc cap ;;
      match blk with
      | None => ret None
      | Some d => ret (Some (mkCBuffer 0 cap d))
      end
  end.

Definition cbuffer_from (source : option (list byte)) (src_len : Z)
  : M (option CBuffer) :=
  match source with
  | None => cbuffer_alloc CBUFFER_DEFAULT_CAPACITY
  | Some src =>
      if src_len =? 0 then cbuffer_alloc CBUFFER_DEFAULT_CAPACITY
      else
        buffer <- malloc sizeof_CBuffer ;;
        match buffer with
        | None => ret None
        | Some _ =>
            blk <- malloc src_len ;;
            match blk with
            | None => ret None
            | Some d =>
                d' <- memcpy_heap d 0 src src_len ;;
                ret (Some (mkCBuffer src_len src_len d'))
            end
        end
  end.

(** ** buffer.c: growth *)

(** The [while] loop of [cbuffer_ensure_capacity]; [fuel] bounds the number of
    times the loop condition is evaluated, [None] means it ran out. *)
Fixpoint grow_loop (fuel : nat) (cap new_capacity size : Z) : option Z :=
  match fuel with
  | O => None
  | S fuel' =>
      if new_capacity <? size then
        let doubled := size_t_wrap (new_capacity * CBUFFER_GROWTH_FACTOR) in
        let new_capacity := if doubled <? cap then size else doubled in
        grow_loop fuel' cap new_capacity size
      else Some new_capacity
  end.

(** A mutating call returns its [int] result and the buffer as it leaves it. *)
Definition cbuffer_ensure_capacity (fuel : nat) (buffer : option CBuffer) (size : Z)
  (h : Heap) : option ((Z * option CBuffer) * Heap) :=
  match buffer with
  | None => Some ((-1, None), h)
  | Some b =>
      if size <=? capacity b then Some ((0, Some b), h)
      else
        match grow_loop fuel (capacity b) (capacity b) size with
        | None => None
        | Some new_capacity =>
            let (new_data, h') := realloc (data b) new_capacity h in
            match new_data with
            | None => Some ((-1, Some b), h')
            | Some d =>
                Some ((0, Some (mkCBuffer (byte_length b) new_capacity d)), h')
            end
        end
  end.

Definition cbuffer_write (fuel : nat) (buffer : option CBuffer)
  (source : option (list byte)) (src_len : Z)
  (h : Heap) : option ((Z * option CBuffer) * Heap) :=
  match buffer, source with
  | None, _ => Some ((0, buffer), h)
  | Some _, None => Some ((0, buffer), h)
  | Some b, Some src =>
      if src_len =? 0 then Some ((0, buffer), h)
      else
        let tr_size := size_t_wrap (byte_length b + src_len) in
        match cbuffer_ensure_capacity fuel buffer tr_size h with
        | None => None
        | Some ((rc, buffer'), h') =>
            if negb (rc =? 0) then Some ((-1, buffer'), h')
            else
              match buffer' with
              | None => Some ((-1, None), h')
              | Some b' =>
                  let (d, h'') := memcpy_heap (data b') (byte_length b') src src_len h' in
                  Some ((to_int src_len,
                         Some (mkCBuffer tr_size (capacity b') d)), h'')
              end
        end
  end.

(** ** buffer.c: derived buffers *)

Definition cbuffer_clone (buffer : option CBuffer) : M (option CBuffer) :=
  match buffer with
  | None => ret None
  | Some b => cbuffer_from (Some (data b)) (byte_length b)
  end.

Definition cbuffer_subarray (buffer : option CBuffer) (start end_ : Z)
  : M (option CBuffer) :=
  match buffer with
  | None => ret None
  | Some b =>
      let end_ := if (end_ =? 0) || (byte_length b <? end_)
                  then byte_length b else end_ in
      if (byte_length b <=? start) || (end_ <=? start) then cbuffer_alloc 0
      else
        let slice_len := end_ - start in
        cbuffer_from (Some (skipn (Z.to_nat start) (data b))) slice_len
  end.

(** ** buffer.c: scalar access *)

Definition CBUFFER_BOUNDS_CHECK (buffer : option CBuffer) (offset size : Z) : Z :=
  match buffer with
  | None => -1
  | Some b =>
      if (offset <=? byte_length b) && (size <=? byte_length b - offset)
      then 0 else -1
  end.

Definition swap_endian_16 (value : Z) : Z :=
  let value := wrap16 value in
  wrap16 (Z.lor (Z.shiftl value 0x8) (Z.shiftr value 0x8)).

Definition swap_endian_32 (value : Z) : Z :=
  let value := wrap32 value in
  Z.lor (Z.lor (Z.lor (wrap32 (Z.shiftl value 0x18))
                      (wrap32 (Z.shiftl (Z.land value 0x0000FF00) 0x8)))
               (Z.shiftr (Z.land value 0x00FF0000) 0x8))
        (Z.shiftr value 0x18).

Definition swap_endian_64 (value : Z) : Z :=
  let value := wrap64 value in
  fold_left
    (fun result bit =>
       Z.lor result
         (wrap64 (Z.shiftl (Z.land (Z.shiftr value (bit * 0x8)) 0xFF)
                           ((0x7 - bit) * 0x8))))
    (map Z.of_nat (seq 0 0x8)) 0.

(** The scalar type [T] a macro is expanded at. *)
Inductive scalar := U16 | U32 | U64.

Definition sizeof (T : scalar) : Z :=
  match T with U16 => 2 | U32 => 4 | U64 => 8 end.

Definition swap_endian (T : scalar) : Z -> Z :=
  match T with
  | U16 => swap_endian_16
  | U32 => swap_endian_32
  | U64 => swap_endian_64
  end.

(** What [memcpy] between a scalar object and a byte block means depends on
    the byte order of the machine. *)
Inductive byte_order := LittleEndian | BigEndian.

Definition load_native (host : byte_order) (bs : list byte) : Z :=
  match host with
  | LittleEndian => le_combine bs
  | BigEndian => le_combine (rev bs)
  end.

Definition store_native (host : byte_order) (n : nat) (v : Z) : list byte :=
  match host with
  | LittleEndian => le_split n v
  | BigEndian => rev (le_split n v)
  end.

Definition bytes_at (blk : list byte) (offset size : Z) : list byte :=
  firstn (Z.to_nat size) (skipn (Z.to_nat offset) blk).

(** The body [CBUFFER_READ_VALUE(T, size, swap_func)] expands to, in a
    function of [buffer] and [offset]. *)
Definition CBUFFER_READ_VALUE (host : byte_order) (T : scalar) (size : Z)
  (swap_func : Z -> Z) (buffer : option CBuffer) (offset : Z) : Z :=
  if negb (CBUFFER_BOUNDS_CHECK buffer offset size =? 0) then 0
  else
    match buffer with
    | None => 0
    | Some b =>
        let value := load_native host (bytes_at (data b) offset size) in
        swap_func value
    end.

(** Modelled from the spec: [mempcy], which the write macro calls, is declared
    nowhere in the sources; the spec has the scalar write store the reordered
    bytes in place at the offset, which is what [memcpy] does. *)
Definition mempcy := memcpy.

(** The body [CBUFFER_WRITE_VALUE(T, size, swap_func)] expands to, in a
    function of [buffer], [offset] and [value]. *)
Definition CBUFFER_WRITE_VALUE (host : byte_order) (T : scalar) (size : Z)
  (swap_func : Z -> Z) (buffer : option CBuffer) (offset value : Z)
  : Z * option CBuffer :=
  if negb (CBUFFER_BOUNDS_CHECK buffer offset size =? 0) then (0, buffer)
  else
    match buffer with
    | None => (0, buffer)
    | Some b =>
        let value_le := swap_func value in
        let d := fst (mempcy (data b) offset
                        (store_native host (Z.to_nat size) value_le) size) in
        (0, Some (mkCBuffer (byte_length b) (capacity b) d))
    end.

(** Modelled from the spec: the sources define the two macros and expand
    them nowhere, so the functions [readUintN] and [writeUintN] are missing.
    The spec has them pass, for a width of [N] bits, the byte reversal when
    the requested order differs from the order of the stored bytes and no
    reordering otherwise. *)
Definition swap_for (T : scalar) (reorder : bool) : Z -> Z :=
  if reorder then swap_endian T else fun value => value.

Definition readUint (host : byte_order) (T : scalar) (reorder : bool) :=
  CBUFFER_READ_VALUE host T (sizeof T) (swap_for T reorder).

Definition writeUint (host : byte_order) (T : scalar) (reorder : bool) :=
  CBUFFER_WRITE_VALUE host T (sizeof T) (swap_for T reorder).

(** Modelled from the spec: [cbuffer_equals] is declared in buffer.h and
    defined nowhere; the spec has it true iff the lengths are equal and every
    byte in use matches. *)
Fixpoint bytes_eqb (xs ys : list byte) : bool :=
  match xs, ys with
  | [], [] => true
  | x :: xs', y :: ys' => Byte.eqb x y && bytes_eqb xs' ys'
  | _, _ => false
  end.

Definition used_bytes (b : CBuffer) : list byte :=
  firstn (Z.to_nat (byte_length b)) (data b).

Definition cbuffer_equals (a b : CBuffer) : bool :=
  (byte_length a =? byte_length b) && bytes_eqb (used_bytes a) (used_bytes b).

(** ** buffer.c: hexadecimal text *)

(** One digit of the ["%x"] conversion: ['0'] is 48 and ['a'] is 97. *)
Definition hex_digit (n : Z) : byte :=
  byte.of_Z (if n <? 10 then 48 + n else 87 + n).

(** What [sprintf(dst, "%02x", value)] stores for an [unsigned char]: two
    digits and the terminating NUL. *)
Definition sprintf_02x (value : byte) : list byte :=
  [hex_digit (byte.unsigned value / 16);
   hex_digit (byte.unsigned value mod 16);
   Byte.x00].

(** [blk[i]]; a read past the block yields an indeterminate byte and is
    recorded in the heap. *)
Definition load_byte (blk : list byte) (i : nat) : M byte := fun h =>
  (nth i blk (garbage h i),
   mkHeap (outcomes h) (garbage h)
          (corrupted h || negb (i <? length blk)%nat)).

(** The [for] loop of [cbuffer_to_hex] over the indices it visits. *)
Fixpoint to_hex_loop (indices : list nat) (bytes hex_str : list byte)
  : M (list byte) :=
  match indices with
  | [] => ret hex_str
  | i :: rest =>
      value <- load_byte bytes i ;;
      hex_str' <- memcpy_heap hex_str (size_t_wrap (Z.of_nat i * 2))
                    (sprintf_02x value) 3 ;;
      to_hex_loop rest bytes hex_str'
  end.

Definition cbuffer_to_hex (buffer : CBuffer) : M (option (list byte)) :=
  let len := byte_length buffer in
  hex_str <- malloc (size_t_wrap (len * 2 + 1)) ;;
  match hex_str with
  | None => ret None
  | Some blk =>
      s <- to_hex_loop (seq 0 (Z.to_nat len)) (data buffer) blk ;;
      ret (Some s)
  end.

(** ** ciphers/aead.h, ciphers/aead.c *)

Record AEADMode := mkAEADMode {
  basename : string;
  agid : Z;
  iv_length : Z;
  tag_length : Z;
  allowed_key_sizes : list Z;
  allowed_key_sizes_count : Z
}.

Definition AES_GCM : Z := 0x15.
Definition AES_CCM : Z := 0x1C.
Definition CHACHA20_POLY1305 : Z := 0xC5.

Definition AES_KEY_SIZES : list Z := [0x10; 0x18; 0x20].
Definition AES_KEY_SIZES_COUNT : Z := Z.of_nat (length AES_KEY_SIZES).

Definition CHACHA20_KEY_SIZES : list Z := [0x20].
Definition CHACHA20_KEY_SIZES_COUNT : Z := Z.of_nat (length CHACHA20_KEY_SIZES).

Definition AEAD_AES_GCM_MODE : AEADMode :=
  mkAEADMode "aes-gcm" AES_GCM 0xC 0x10 AES_KEY_SIZES AES_KEY_SIZES_COUNT.

Definition AEAD_AES_CCM_MODE : AEADMode :=
  mkAEADMode "aes-ccm" AES_CCM 0xD 0x10 AES_KEY_SIZES AES_KEY_SIZES_COUNT.

Definition AEAD_CHACHA20_MODE : AEADMode :=
  mkAEADMode "chacha20-poly1305" CHACHA20_POLY1305 0xC 0x10
             CHACHA20_KEY_SIZES CHACHA20_KEY_SIZES_COUNT.

(** [strcmp] on the contents of two C strings; only its sign matters. *)
Definition strcmp (a b : string) : Z :=
  match String.compare a b with
  | Eq => 0
  | Lt => -1
  | Gt => 1
  end.

Definition aead_aes (mode : option string) : option AEADMode :=
  match mode with
  | None => None
  | Some mode =>
      if (strcmp mode "ccm" =? 0) || (strcmp mode "CCM" =? 0)
      then Some AEAD_AES_CCM_MODE
      else if (strcmp mode "gcm" =? 0) || (strcmp mode "GCM" =? 0)
      then Some AEAD_AES_GCM_MODE
      else None
  end.

Definition aead_chacha20 : AEADMode := AEAD_CHACHA20_MODE.

(** ** Vocabulary of the specification *)

(** The representation invariant of a live buffer: the length is within the
    capacity, the capacity is a non-zero [size_t], and [data] is a block of
    [capacity] bytes. *)
Definition invariant (b : CBuffer) : Prop :=
  0 <= byte_length b <= capacity b.

Definition wf (b : CBuffer) : Prop :=
  invariant b
  /\ 1 <= capacity b < 2 ^ SIZE_WIDTH
  /\ Z.of_nat (length (data b)) = capacity b.

(** The next [n] allocation requests all succeed. *)
Definition allocations_succeed (n : nat) (h : Heap) : bool :=
  forallb (fun ok => ok) (firstn n (outcomes h)).

(** The capacity after [k] doublings in [size_t] arithmetic. *)
Definition doublings (cap : Z) (k : nat) : Z :=
  Nat.iter k (fun c => size_t_wrap (c * 2)) cap.

(** The growth policy in the words of the specification: double until the
    requested size is reached; a doubling that wraps below the capacity of the
    buffer snaps the target to the requested size. *)
Definition growth_target (cap size target : Z) : Prop :=
  exists k : nat,
    (1 <= k <= 64)%nat
    /\ (forall j : nat, (1 <= j < k)%nat ->
          cap <= doublings cap j /\ doublings cap j < size)
    /\ ((doublings cap k < cap /\ target = size)
        \/ (cap <= doublings cap k /\ size <= doublings cap k
            /\ target = doublings cap k)).

(** What the growth loop leaves in [new_capacity] when it is entered after
    [j] doublings that neither reached [size] nor fell below [cap]. *)
Definition loop_exit (cap size : Z) (j : nat) (r : Z) : Prop :=
  exists k : nat,
    (j <= k <= 64)%nat
    /\ (forall i : nat, (j <= i < k)%nat ->
          cap <= doublings cap i /\ doublings cap i < size)
    /\ (((j < k)%nat /\ doublings cap k < cap /\ r = size)
        \/ (cap <= doublings cap k /\ size <= doublings cap k
            /\ r = doublings cap k)).

(** Case variants of a sub-mode name: strings equal up to the case of their
    ASCII letters. *)
Definition lower_ascii (c : ascii) : ascii :=
  let n := nat_of_ascii c in
  if ((65 <=? n) && (n <=? 90))%nat then ascii_of_nat (n + 32) else c.

Fixpoint lowercase (s : string) : string :=
  match s with
  | EmptyString => EmptyString
  | String c s' => String (lower_ascii c) (lowercase s')
  end.

Definition case_variant (s t : string) : Prop := lowercase s = lowercase t.

(** Every allocation request still to come succeeds. *)
Definition never_fails (h : Heap) : Prop :=
  forallb (fun ok => ok) (outcomes h) = true.

(** A caller appending one source after the other, ignoring the results. *)
Fixpoint write_all (fuel : nat) (buffer : option CBuffer)
  (sources : list (list byte)) (h : Heap) : option (option CBuffer * Heap) :=
  match sources with
  | [] => Some (buffer, h)
  | src :: rest =>
      match cbuffer_write fuel buffer (Some src) (Z.of_nat (length src)) h with
      | None => None
      | Some ((_, buffer'), h') => write_all fuel buffer' rest h'
      end
  end.

(** The two hexadecimal digits of every byte, most significant first. *)
Definition hex_pairs (bs : list byte) : list byte :=
  flat_map (fun v => [hex_digit (byte.unsigned v / 16);
                      hex_digit (byte.unsigned v mod 16)]) bs.

(** The bit width of a scalar type. *)
Definition bits (T : scalar) : Z := 8 * sizeof T.

(** What a caller observes of a mutating call.  A run in which a copy has
    left its block has undefined behaviour: it has no result, whatever the
    model goes on to compute.  A run that exhausts its fuel has not
    returned. *)
Inductive observation :=
| Returns (rc : Z) (buffer : option CBuffer) (h : Heap)
| Undefined
| NoReturn.

Definition observe (run : option ((Z * option CBuffer) * Heap)) : observation :=
  match run with
  | None => NoReturn
  | Some ((rc, buffer), h') =>
      if corrupted h' then Undefined else Returns rc buffer h'
  end.

(** Buffers used in the examples. *)
Definition quiet_heap : Heap := mkHeap [] (fun _ => Byte.x00) false.

Definition empty_buffer : CBuffer :=
  mkCBuffer 0 CBUFFER_DEFAULT_CAPACITY (repeat Byte.x00 64).

Definition bytes_of (zs : list Z) : list byte := map byte.of_Z zs.

Definition buffer_of (zs : list Z) : CBuffer :=
  mkCBuffer (Z.of_nat (length zs)) (Z.of_nat (length zs)) (bytes_of zs).

(** * Properties *)

(** Closed side conditions on concrete buffers and sizes. *)
Ltac concrete :=
  unfold wf, invariant, is_size_t in *; cbn in *;
  unfold INT_MAX, SIZE_WIDTH, CBUFFER_DEFAULT_CAPACITY in *;
  cbn in *; lia.

(** ** Arithmetic of [size_t] *)

Lemma size_t_wrap_small z : is_size_t z -> size_t_wrap z = z.
Proof. unfold is_size_t, size_t_wrap. intros Hz. apply Z.mod_small. exact Hz. Qed.

Lemma size_t_wrap_range z : is_size_t (size_t_wrap z).
Proof.
  unfold is_size_t, size_t_wrap, SIZE_WIDTH. apply Z.mod_pos_bound. lia.
Qed.

Lemma doublings_succ cap k :
  doublings cap (S k) = size_t_wrap (doublings cap k * 2).
Proof. reflexivity. Qed.

Lemma doublings_closed_form cap k :
  is_size_t cap -> doublings cap k = (cap * 2 ^ Z.of_nat k) mod 2 ^ SIZE_WIDTH.
Proof.
  intros Hcap. induction k as [|k IH].
  - cbn. rewrite Z.mul_1_r. symmetry. apply Z.mod_small. exact Hcap.
  - rewrite doublings_succ, IH. unfold size_t_wrap.
    rewrite Z.mul_mod_idemp_l by (unfold SIZE_WIDTH; lia).
    f_equal. rewrite Nat2Z.inj_succ, Z.pow_succ_r by lia. ring.
Qed.

Lemma doublings_64 cap : is_size_t cap -> doublings cap 64 = 0.
Proof.
  intros Hcap. rewrite doublings_closed_form by exact Hcap.
  unfold SIZE_WIDTH. change (Z.of_nat 64) with 64. apply Z_mod_mult.
Qed.

Lemma doublings_range cap k : is_size_t cap -> is_size_t (doublings cap k).
Proof.
  intros Hcap. destruct k as [|k].
  - exact Hcap.
  - rewrite doublings_succ. apply size_t_wrap_range.
Qed.

(** ** The growth loop *)

Section GrowLoop.
Variables cap size : Z.
Hypothesis cap_pos : 1 <= cap.
Hypothesis cap_size_t : is_size_t cap.

Lemma grow_loop_snapped fuel : grow_loop (S fuel) cap size size = Some size.
Proof. cbn. rewrite Z.ltb_irrefl. reflexivity. Qed.

Lemma grow_loop_from (n : nat) :
  forall (j extra : nat),
    (j + n = 64)%nat ->
    cap <= doublings cap j ->
    exists r, grow_loop (S n + extra) cap (doublings cap j) size = Some r
              /\ loop_exit cap size j r.
Proof.
  induction n as [|n IH]; intros j extra Hj Hge.
  - replace j with 64%nat in Hge by lia.
    rewrite doublings_64 in Hge by exact cap_size_t. lia.
  - cbn [Nat.add grow_loop].
    destruct (Z.ltb_spec (doublings cap j) size) as [Hlt | Hreach].
    + change CBUFFER_GROWTH_FACTOR with 2. rewrite <- doublings_succ.
      destruct (Z.ltb_spec (doublings cap (S j)) cap) as [Hwrap | Hkeep].
      * exists size. split.
        { apply grow_loop_snapped. }
        exists (S j). split; [lia|]. split.
        { intros i Hi. replace i with j by lia. lia. }
        left. repeat split; try lia.
      * destruct (IH (S j) extra ltac:(lia) Hkeep) as (r & Hrun & k & Hk & Hbelow & Hend).
        exists r. split; [exact Hrun|].
        exists k. split; [lia|]. split.
        { intros i Hi. destruct (Nat.eq_dec i j) as [->|Hne].
          - lia.
          - apply Hbelow. lia. }
        destruct Hend as [(Hjk & Hw & Hr) | Hend]; [left | right; exact Hend].
        repeat split; try assumption. lia.
    + exists (doublings cap j). split; [reflexivity|].
      exists j. split; [lia|]. split.
      { intros i Hi. lia. }
      right. repeat split; lia.
Qed.

Lemma grow_loop_total (fuel : nat) :
  (65 <= fuel)%nat ->
  exists r, grow_loop fuel cap cap size = Some r /\ loop_exit cap size 0 r.
Proof.
  intros Hfuel.
  replace fuel with (S 64 + (fuel - 65))%nat by lia.
  apply (grow_loop_from 64 0 (fuel - 65)); [reflexivity | cbn; lia].
Qed.

Lemma loop_exit_reaches r : loop_exit cap size 0 r -> size <= r.
Proof. intros (k & _ & _ & [(_ & _ & ->) | (_ & H & ->)]); lia. Qed.

Lemma loop_exit_target r : cap < size -> loop_exit cap size 0 r -> growth_target cap size r.
Proof.
  intros Hlt (k & Hk & Hbelow & Hend).
  assert (Hk1 : (1 <= k)%nat).
  { destruct k as [|k]; [|lia]. cbn in Hend. lia. }
  exists k. split; [lia|]. split.
  - intros j Hj. apply Hbelow. lia.
  - destruct Hend as [(_ & Hw & Hr) | Hend]; [left; split; assumption | right; exact Hend].
Qed.
End GrowLoop.

(** Without the precondition the loop has no exit: a buffer of capacity zero
    asked to grow doubles zero for ever. *)
Lemma grow_loop_zero_capacity fuel size :
  0 < size -> grow_loop fuel 0 0 size = None.
Proof.
  intros Hsize. induction fuel as [|fuel IH]; [reflexivity|].
  cbn [grow_loop]. destruct (Z.ltb_spec 0 size) as [_|]; [|lia].
  cbn. exact IH.
Qed.

(** ** The heap and blocks of bytes *)

Lemma next_request_keeps h :
  garbage (snd (next_request h)) = garbage h
  /\ corrupted (snd (next_request h)) = corrupted h.
Proof.
  unfold next_request. destruct (outcomes h); cbn; split; reflexivity.
Qed.

Lemma allocations_succeed_step n h :
  allocations_succeed (S n) h = true ->
  fst (next_request h) = true
  /\ allocations_succeed n (snd (next_request h)) = true.
Proof.
  unfold allocations_succeed, next_request.
  destruct (outcomes h) as [|ok rest] eqn:Hout; cbn.
  - intros _. rewrite Hout. destruct n; cbn; split; reflexivity.
  - intros H. apply andb_true_iff in H. destruct H as [-> H]. split; [reflexivity | exact H].
Qed.

Lemma fresh_length h from count : length (fresh h from count) = count.
Proof. unfold fresh. rewrite length_map, length_seq. reflexivity. Qed.

Lemma malloc_run n h :
  malloc n h = (if fst (next_request h) then Some (fresh h 0 (Z.to_nat n)) else None,
                snd (next_request h)).
Proof. unfold malloc. destruct (next_request h). reflexivity. Qed.

Lemma realloc_run block n h :
  realloc block n h =
  (if fst (next_request h)
   then Some (firstn (Z.to_nat n) block
              ++ fresh h (length block) (Z.to_nat n - length block))
   else None,
   snd (next_request h)).
Proof. unfold realloc. destruct (next_request h). reflexivity. Qed.

Lemma grown_block_length h (block : list byte) (n : nat) :
  length (firstn n block ++ fresh h (length block) (n - length block)) = n.
Proof. rewrite length_app, length_firstn, fresh_length. lia. Qed.

Lemma grown_block_prefix h (block : list byte) (n : nat) :
  (length block <= n)%nat ->
  firstn (length block)
         (firstn n block ++ fresh h (length block) (n - length block)) = block.
Proof.
  intros Hle. rewrite firstn_all2 with (n := n) by exact Hle.
  rewrite firstn_app, Nat.sub_diag, firstn_all. cbn. apply app_nil_r.
Qed.

Lemma memcpy_length dst off src n :
  0 <= off -> length (fst (memcpy dst off src n)) = length dst.
Proof.
  intros Hoff. unfold memcpy. cbn [fst].
  rewrite !length_app, length_skipn.
  set (inside := firstn _ src).
  assert (Hin : (length inside <= Z.to_nat (Z.of_nat (length dst) - off))%nat).
  { subst inside. rewrite length_firstn. lia. }
  rewrite length_firstn. lia.
Qed.

(** Copying [n] bytes to offset [off] of a block with room for them puts the
    first [n] bytes of the source after the first [off] bytes of the block. *)
Lemma memcpy_appends dst off src n :
  0 <= off -> 0 <= n ->
  off + n <= Z.of_nat (length dst) ->
  n <= Z.of_nat (length src) ->
  firstn (Z.to_nat (off + n)) (fst (memcpy dst off src n))
  = firstn (Z.to_nat off) dst ++ firstn (Z.to_nat n) src.
Proof.
  intros Hoff Hn Hroom Hsrc. unfold memcpy. cbn [fst].
  rewrite Z.min_l by lia.
  rewrite app_assoc, firstn_app.
  assert (Hlen : length (firstn (Z.to_nat off) dst ++ firstn (Z.to_nat n) src)
                 = Z.to_nat (off + n)).
  { rewrite length_app, !length_firstn. lia. }
  rewrite Hlen, Nat.sub_diag, firstn_O, app_nil_r.
  rewrite <- Hlen. apply firstn_all.
Qed.

Lemma memcpy_in_bounds dst off src n :
  off + n <= Z.of_nat (length dst) ->
  n <= Z.of_nat (length src) ->
  snd (memcpy dst off src n) = true.
Proof.
  intros Hroom Hsrc. unfold memcpy. cbn [snd].
  apply andb_true_iff. split; apply Z.leb_le; lia.
Qed.

(** Copying a slice of a block back to where it came from changes nothing. *)
Lemma memcpy_slice_back dst off n :
  0 <= off -> 0 <= n ->
  off + n <= Z.of_nat (length dst) ->
  fst (memcpy dst off (bytes_at dst off n) n) = dst.
Proof.
  intros Hoff Hn Hroom. unfold memcpy, bytes_at. cbn [fst].
  rewrite Z.min_l by lia. rewrite firstn_firstn, Nat.min_id.
  rewrite length_firstn, length_skipn.
  replace (Z.to_nat off + Nat.min (Z.to_nat n) (length dst - Z.to_nat off))%nat
    with (Z.to_nat n + Z.to_nat off)%nat by lia.
  rewrite <- skipn_skipn.
  rewrite firstn_skipn. apply firstn_skipn.
Qed.

Lemma bytes_at_length blk off n :
  0 <= off -> 0 <= n -> off + n <= Z.of_nat (length blk) ->
  length (bytes_at blk off n) = Z.to_nat n.
Proof.
  intros Hoff Hn Hroom. unfold bytes_at.
  rewrite length_firstn, length_skipn. lia.
Qed.

(** A slice inside the bytes in use does not see what lies beyond them. *)
Lemma bytes_at_used blk len off n :
  0 <= off -> 0 <= n -> off + n <= len ->
  bytes_at (firstn (Z.to_nat len) blk) off n = bytes_at blk off n.
Proof.
  intros Hoff Hn Hle. unfold bytes_at.
  rewrite skipn_firstn_comm, firstn_firstn.
  f_equal. lia.
Qed.

(** ** [cbuffer_ensure_capacity] *)

Lemma grow_loop_more_fuel cap size r :
  forall fuel extra nc,
    grow_loop fuel cap nc size = Some r ->
    grow_loop (fuel + extra) cap nc size = Some r.
Proof.
  induction fuel as [|fuel IH]; intros extra nc Hrun; [discriminate|].
  cbn [Nat.add grow_loop] in *.
  destruct (nc <? size); [|exact Hrun].
  apply IH. exact Hrun.
Qed.

Lemma loop_exit_size_t cap size r :
  is_size_t cap -> is_size_t size -> loop_exit cap size 0 r -> is_size_t r.
Proof.
  intros Hcap Hsize (k & _ & _ & [(_ & _ & ->) | (_ & _ & ->)]).
  - exact Hsize.
  - apply doublings_range. exact Hcap.
Qed.

Lemma wf_capacity b : wf b -> 1 <= capacity b /\ is_size_t (capacity b).
Proof. unfold wf, is_size_t. lia. Qed.

(** The one path of [cbuffer_ensure_capacity] that grows the buffer. *)
Lemma ensure_capacity_grows fuel b size h :
  wf b -> is_size_t size -> (65 <= fuel)%nat -> capacity b < size ->
  exists target,
    growth_target (capacity b) size target
    /\ size <= target /\ is_size_t target
    /\ cbuffer_ensure_capacity fuel (Some b) size h
       = Some (if fst (next_request h)
               then (0, Some (mkCBuffer (byte_length b) target
                                (firstn (Z.to_nat target) (data b)
                                 ++ fresh h (length (data b))
                                      (Z.to_nat target - length (data b)))))
               else (-1, Some b),
               snd (next_request h)).
Proof.
  intros Hwf Hsize Hfuel Hlt.
  destruct (wf_capacity b Hwf) as [Hpos Hcap].
  destruct (grow_loop_total (capacity b) size Hpos Hcap fuel Hfuel) as (r & Hrun & Hexit).
  exists r. split; [apply loop_exit_target; assumption|].
  split; [apply loop_exit_reaches with (cap := capacity b); exact Hexit|].
  split; [apply loop_exit_size_t with (cap := capacity b) (size := size); assumption|].
  unfold cbuffer_ensure_capacity.
  destruct (Z.leb_spec size (capacity b)) as [|_]; [lia|].
  rewrite Hrun, realloc_run.
  destruct (fst (next_request h)); reflexivity.
Qed.

Lemma ensure_capacity_enough fuel b size h :
  size <= capacity b ->
  cbuffer_ensure_capacity fuel (Some b) size h = Some ((0, Some b), h).
Proof.
  intros Hle. unfold cbuffer_ensure_capacity.
  destruct (Z.leb_spec size (capacity b)) as [_|]; [reflexivity | lia].
Qed.

(** C2. [cbuffer_ensure_capacity] leaves a buffer whose capacity already
    covers the request alone.  Otherwise it succeeds exactly when the
    reallocation does, and then the new capacity is the capacity doubled in
    [size_t] arithmetic until it reaches the request, or the request itself
    once a doubling falls below the capacity of the buffer; the length and
    every byte of the old block are kept. *)
Theorem ensure_capacity_doubles fuel b size h :
  wf b -> is_size_t size -> (65 <= fuel)%nat ->
  (size <= capacity b ->
   cbuffer_ensure_capacity fuel (Some b) size h = Some ((0, Some b), h))
  /\ (capacity b < size ->
      exists rc b' h',
        cbuffer_ensure_capacity fuel (Some b) size h = Some ((rc, Some b'), h')
        /\ (rc = 0 <-> fst (next_request h) = true)
        /\ (rc = 0 ->
            growth_target (capacity b) size (capacity b')
            /\ size <= capacity b'
            /\ byte_length b' = byte_length b
            /\ firstn (length (data b)) (data b') = data b
            /\ Z.of_nat (length (data b')) = capacity b')).
Proof.
  intros Hwf Hsize Hfuel. split.
  - apply ensure_capacity_enough.
  - intros Hlt.
    destruct (ensure_capacity_grows fuel b size h Hwf Hsize Hfuel Hlt)
      as (target & Htarget & Hreach & Hrange & Hrun).
    rewrite Hrun. destruct (fst (next_request h)).
    + eexists _, _, _. split; [reflexivity|]. split; [tauto|].
      intros _. cbn [capacity byte_length data].
      split; [exact Htarget|]. split; [exact Hreach|]. split; [reflexivity|].
      assert (Hlen : (length (data b) <= Z.to_nat target)%nat).
      { destruct Hwf as (_ & _ & Hblock). lia. }
      split.
      * apply grown_block_prefix. exact Hlen.
      * rewrite grown_block_length. unfold is_size_t in Hrange. lia.
    + eexists _, _, _. split; [reflexivity|]. split.
      * split; [lia | discriminate].
      * lia.
Qed.

Lemma ensure_capacity_doubles_witness :
  wf (buffer_of [1; 2; 3])
  /\ is_size_t 10
  /\ capacity (buffer_of [1; 2; 3]) < 10
  /\ exists rc b' h',
      cbuffer_ensure_capacity 65 (Some (buffer_of [1; 2; 3])) 10 quiet_heap
      = Some ((rc, Some b'), h')
      /\ rc = 0 /\ growth_target 3 10 (capacity b') /\ capacity b' = 12.
Proof.
  assert (Hwf : wf (buffer_of [1; 2; 3])) by concrete.
  assert (Hsize : is_size_t 10) by concrete.
  assert (Hlt : capacity (buffer_of [1; 2; 3]) < 10) by concrete.
  repeat (split; [assumption|]).
  destruct (ensure_capacity_doubles 65 (buffer_of [1; 2; 3]) 10 quiet_heap
              Hwf Hsize (le_n 65)) as [_ Hgrow].
  destruct (Hgrow Hlt) as (rc & b' & h' & Hrun & Hok & Hres).
  assert (Hrc : rc = 0) by (apply Hok; reflexivity).
  exists rc, b', h'. split; [exact Hrun|]. split; [exact Hrc|].
  split; [apply (Hres Hrc)|].
  vm_compute in Hrun. injection Hrun as _ <- _. reflexivity.
Defined.

(** C9. For a capacity of at least one the doubling loop stops within 64
    iterations (65 evaluations of its condition), whatever size is asked for:
    either a doubling modulo 2^64 has reached the requested size, or one has
    fallen below the original capacity and the target is the requested size. *)
Theorem grow_loop_terminates cap size :
  1 <= cap -> is_size_t cap ->
  exists r,
    (forall fuel, (65 <= fuel)%nat -> grow_loop fuel cap cap size = Some r)
    /\ size <= r
    /\ ((exists k, (k <= 64)%nat /\ size <= doublings cap k /\ r = doublings cap k)
        \/ (exists k, (1 <= k <= 64)%nat /\ doublings cap k < cap /\ r = size)).
Proof.
  intros Hpos Hcap.
  destruct (grow_loop_total cap size Hpos Hcap 65 (le_n 65)) as (r & Hrun & Hexit).
  exists r. split; [|split].
  - intros fuel Hfuel. replace fuel with (65 + (fuel - 65))%nat by lia.
    apply grow_loop_more_fuel. exact Hrun.
  - apply loop_exit_reaches with (cap := cap). exact Hexit.
  - destruct Hexit as (k & Hk & _ & [(Hjk & Hw & Hr) | (_ & Hreach & Hr)]).
    + right. exists k. repeat split; try assumption; lia.
    + left. exists k. repeat split; try assumption; lia.
Qed.

Lemma grow_loop_terminates_witness :
  1 <= 1 /\ is_size_t 1
  /\ exists r, (forall fuel, (65 <= fuel)%nat ->
                   grow_loop fuel 1 1 (2 ^ 64 - 1) = Some r)
               /\ 2 ^ 64 - 1 <= r.
Proof.
  assert (Hcap : is_size_t 1) by concrete.
  split; [lia|]. split; [exact Hcap|].
  destruct (grow_loop_terminates 1 (2 ^ 64 - 1) ltac:(lia) Hcap)
    as (r & Hrun & Hreach & _).
  exists r. split; assumption.
Defined.

(** The bound is reached: a capacity of 1 asked for [SIZE_MAX] doubles 64
    times, and 64 evaluations of the loop condition are not enough. *)
Example grow_loop_bound_is_tight :
  grow_loop 64 1 1 (2 ^ 64 - 1) = None
  /\ grow_loop 65 1 1 (2 ^ 64 - 1) = Some (2 ^ 64 - 1).
Proof. split; vm_compute; reflexivity. Qed.

(** The growth loop tests a wrapped doubling against the capacity of the
    buffer only: a doubling that wraps to a value above it goes on doubling. *)
Example grow_loop_wrap_above_capacity :
  grow_loop 65 45 45 (3 * 2 ^ 62) = Some (13 * 2 ^ 60).
Proof. vm_compute. reflexivity. Qed.

(** ** [cbuffer_write] *)

Lemma memcpy_heap_run dst off src n h :
  memcpy_heap dst off src n h
  = (fst (memcpy dst off src n),
     mkHeap (outcomes h) (garbage h)
            (corrupted h || negb (snd (memcpy dst off src n)))).
Proof. unfold memcpy_heap. destruct (memcpy dst off src n). reflexivity. Qed.

Lemma to_int_small z : 0 <= z <= INT_MAX -> to_int z = z.
Proof.
  unfold to_int, INT_MAX. intros Hz.
  rewrite Z.mod_small by lia. lia.
Qed.

Lemma to_int_range z : INT_MIN <= to_int z <= INT_MAX.
Proof.
  unfold to_int, INT_MIN, INT_MAX.
  pose proof (Z.mod_pos_bound (z + 2 ^ 31) (2 ^ 32) ltac:(lia)). lia.
Qed.

(** What a write that has something to append does: it asks for
    [byte_length + src_len] bytes of capacity, computed in [size_t], and
    either fails with the buffer as it was or copies and sets the length. *)
Lemma write_cases fuel b src src_len h :
  wf b -> is_size_t src_len -> src_len <> 0 -> (65 <= fuel)%nat ->
  let tr_size := size_t_wrap (byte_length b + src_len) in
  (exists h',
      cbuffer_ensure_capacity fuel (Some b) tr_size h = Some ((-1, Some b), h')
      /\ capacity b < tr_size /\ fst (next_request h) = false
      /\ cbuffer_write fuel (Some b) (Some src) src_len h = Some ((-1, Some b), h'))
  \/ (exists b1 h1,
        cbuffer_ensure_capacity fuel (Some b) tr_size h = Some ((0, Some b1), h1)
        /\ (capacity b < tr_size -> fst (next_request h) = true)
        /\ (tr_size <= capacity b -> b1 = b /\ h1 = h)
        /\ wf b1 /\ tr_size <= capacity b1
        /\ byte_length b1 = byte_length b
        /\ firstn (length (data b)) (data b1) = data b
        /\ corrupted h1 = corrupted h
        /\ cbuffer_write fuel (Some b) (Some src) src_len h
           = Some ((to_int src_len,
                    Some (mkCBuffer tr_size (capacity b1)
                            (fst (memcpy (data b1) (byte_length b) src src_len)))),
                   mkHeap (outcomes h1) (garbage h1)
                     (corrupted h1
                      || negb (snd (memcpy (data b1) (byte_length b) src src_len))))).
Proof.
  intros Hwf Hlen Hnz Hfuel tr_size.
  assert (Htr : is_size_t tr_size) by apply size_t_wrap_range.
  unfold cbuffer_write.
  destruct (Z.eqb_spec src_len 0) as [|_]; [contradiction|].
  fold tr_size.
  destruct (Z.le_gt_cases tr_size (capacity b)) as [Hfit | Hgrow].
  - right. exists b, h.
    rewrite (ensure_capacity_enough fuel b tr_size h Hfit).
    cbn [negb Z.eqb]. rewrite memcpy_heap_run.
    repeat split; try reflexivity; try assumption; try lia; try apply Hwf.
    rewrite firstn_all. reflexivity.
  - destruct (ensure_capacity_grows fuel b tr_size h Hwf Htr Hfuel Hgrow)
      as (target & _ & Hreach & Hrange & Hrun).
    rewrite Hrun. destruct (fst (next_request h)) eqn:Hok.
    + right. eexists _, _. split; [reflexivity|].
      cbn [negb Z.eqb byte_length capacity data]. rewrite memcpy_heap_run.
      destruct Hwf as (Hinv & Hcap & Hblock). unfold invariant, is_size_t in *.
      assert (Hle : (length (data b) <= Z.to_nat target)%nat) by lia.
      split; [reflexivity|]. split; [lia|].
      split.
      { unfold wf, invariant. cbn [byte_length capacity data].
        rewrite grown_block_length. unfold SIZE_WIDTH in *. lia. }
      split; [exact Hreach|]. split; [reflexivity|].
      split; [apply grown_block_prefix; exact Hle|].
      split; [apply next_request_keeps|reflexivity].
    + left. eexists. split; [reflexivity|]. split; [exact Hgrow|].
      split; reflexivity.
Qed.

Lemma used_bytes_grown b b1 :
  invariant b -> Z.of_nat (length (data b)) = capacity b ->
  byte_length b1 = byte_length b ->
  firstn (length (data b)) (data b1) = data b ->
  firstn (Z.to_nat (byte_length b)) (data b1) = used_bytes b.
Proof.
  intros Hinv Hblock Hlen Hprefix. unfold used_bytes, invariant in *.
  rewrite <- Hprefix. rewrite firstn_firstn.
  f_equal. lia.
Qed.

(** C4, as the code has it.  A write with no source or nothing to copy
    returns 0 and touches nothing.  A write of at least one byte that the
    source holds, to a buffer whose length plus [src_len] is a [size_t],
    fails only when the buffer must grow and the reallocation fails (result
    -1, buffer untouched); otherwise it keeps the bytes in use, puts the
    [src_len] source bytes after them, adds [src_len] to the length and
    returns [(int) src_len], which is [src_len] whenever [src_len] is at
    most [INT_MAX]. *)
Theorem write_appends :
  (forall fuel buffer source src_len h,
      source = None \/ src_len = 0 ->
      cbuffer_write fuel buffer source src_len h = Some ((0, buffer), h))
  /\ (forall fuel b src src_len h,
         wf b -> (65 <= fuel)%nat ->
         0 < src_len ->
         src_len <= Z.of_nat (length src) ->
         byte_length b + src_len < 2 ^ SIZE_WIDTH ->
         exists rc b' h',
           cbuffer_write fuel (Some b) (Some src) src_len h
           = Some ((rc, Some b'), h')
           /\ ((rc = -1 /\ b' = b
                /\ capacity b < byte_length b + src_len
                /\ fst (next_request h) = false)
               \/ (rc = to_int src_len
                   /\ (src_len <= INT_MAX -> rc = src_len)
                   /\ (capacity b < byte_length b + src_len ->
                       fst (next_request h) = true)
                   /\ byte_length b' = byte_length b + src_len
                   /\ used_bytes b' = used_bytes b ++ firstn (Z.to_nat src_len) src
                   /\ wf b'
                   /\ corrupted h' = corrupted h))).
Proof.
  split.
  - intros fuel buffer source n h [-> | ->]; unfold cbuffer_write.
    + destruct buffer; reflexivity.
    + destruct buffer, source; reflexivity.
  - intros fuel b src src_len h Hwf Hfuel Hlen Hsrc Hsum.
    pose proof Hwf as (Hinv & Hcap & Hblock). unfold invariant in Hinv.
    assert (Hsz : is_size_t src_len).
    { unfold is_size_t, SIZE_WIDTH in *. lia. }
    assert (Htr : size_t_wrap (byte_length b + src_len) = byte_length b + src_len).
    { apply size_t_wrap_small. unfold is_size_t. lia. }
    destruct (write_cases fuel b src src_len h Hwf Hsz ltac:(lia) Hfuel)
      as [(h' & _ & Hgrow & Hfail & Hrun)
         | (b1 & h1 & _ & Hok & _ & Hwf1 & Hreach & Hlen1 & Hprefix & Hheap & Hrun)];
      rewrite Htr in *.
    + exists (-1), b, h'. split; [exact Hrun|]. left. auto.
    + eexists _, _, _. split; [exact Hrun|]. right.
      destruct Hwf1 as (Hinv1 & Hcap1 & Hblock1). unfold invariant in Hinv1.
      split; [reflexivity|].
      split; [intros Hint; apply to_int_small; lia|]. split; [exact Hok|].
      split; [reflexivity|]. split; [|split].
      * unfold used_bytes at 1. cbn [byte_length data].
        rewrite memcpy_appends by lia.
        f_equal. apply used_bytes_grown; assumption.
      * unfold wf, invariant. cbn [byte_length capacity data].
        rewrite memcpy_length by lia. lia.
      * cbn [corrupted]. rewrite memcpy_in_bounds by lia.
        rewrite Hheap. apply orb_false_r.
Qed.

Lemma write_appends_witness :
  wf empty_buffer
  /\ exists b' h',
      cbuffer_write 65 (Some empty_buffer) (Some (bytes_of [1; 2; 3])) 3 quiet_heap
      = Some ((3, Some b'), h')
      /\ byte_length b' = 3
      /\ used_bytes b' = bytes_of [1; 2; 3].
Proof.
  assert (Hwf : wf empty_buffer) by concrete.
  split; [exact Hwf|].
  destruct (proj2 write_appends 65%nat empty_buffer (bytes_of [1; 2; 3]) 3 quiet_heap
              Hwf (le_n 65))
    as (rc & b' & h' & Hrun & Hres).
  - lia.
  - concrete.
  - concrete.
  - destruct Hres as [(_ & _ & Hgrow & _) | (_ & Hcount & _ & Hlen & Hbytes & _)].
    + concrete.
    + rewrite (Hcount ltac:(unfold INT_MAX; lia)) in Hrun.
      exists b', h'. split; [exact Hrun|]. split; [exact Hlen|].
      exact Hbytes.
Defined.

(** A write of 2 GiB to an empty buffer appends every byte, and the result,
    which should count them, is [INT_MIN]. *)
Lemma write_result_is_not_the_count :
  exists b' h',
    cbuffer_write 65 (Some empty_buffer)
      (Some (repeat Byte.x00 (Z.to_nat (2 ^ 31)))) (2 ^ 31) quiet_heap
    = Some ((- 2 ^ 31, Some b'), h')
    /\ byte_length b' = byte_length empty_buffer + 2 ^ 31
    /\ - 2 ^ 31 <> 2 ^ 31.
Proof.
  assert (Hwf : wf empty_buffer) by concrete.
  assert (Hsz : is_size_t (2 ^ 31)) by concrete.
  destruct (write_cases 65 empty_buffer (repeat Byte.x00 (Z.to_nat (2 ^ 31)))
              (2 ^ 31) quiet_heap Hwf Hsz ltac:(lia) (le_n 65))
    as [(h' & _ & _ & Hfail & _) | (b1 & h1 & _ & _ & _ & _ & _ & _ & _ & _ & Hrun)].
  - discriminate Hfail.
  - change (to_int (2 ^ 31)) with (- 2 ^ 31) in Hrun.
    eexists _, _. split; [exact Hrun|]. split; [reflexivity | lia].
Defined.

(** ** [cbuffer_alloc], [cbuffer_from] and the buffers derived with them *)

Lemma alloc_run cap h :
  cbuffer_alloc cap h =
  if fst (next_request h) then
    (if fst (next_request (snd (next_request h)))
     then Some (mkCBuffer 0 (if 0 <? cap then cap else CBUFFER_DEFAULT_CAPACITY)
                  (fresh (snd (next_request h)) 0
                     (Z.to_nat (if 0 <? cap then cap else CBUFFER_DEFAULT_CAPACITY))))
     else None,
     snd (next_request (snd (next_request h))))
  else (None, snd (next_request h)).
Proof.
  unfold cbuffer_alloc, bind, ret. rewrite malloc_run.
  destruct (fst (next_request h)); [|reflexivity].
  rewrite malloc_run.
  destruct (fst (next_request (snd (next_request h)))); reflexivity.
Qed.

Lemma from_run src src_len h :
  src_len <> 0 ->
  cbuffer_from (Some src) src_len h =
  if fst (next_request h) then
    if fst (next_request (snd (next_request h))) then
      (Some (mkCBuffer src_len src_len
               (fst (memcpy (fresh (snd (next_request h)) 0 (Z.to_nat src_len))
                            0 src src_len))),
       mkHeap (outcomes (snd (next_request (snd (next_request h)))))
              (garbage (snd (next_request (snd (next_request h)))))
              (corrupted (snd (next_request (snd (next_request h))))
               || negb (snd (memcpy (fresh (snd (next_request h)) 0 (Z.to_nat src_len))
                                    0 src src_len))))
    else (None, snd (next_request (snd (next_request h))))
  else (None, snd (next_request h)).
Proof.
  intros Hnz. unfold cbuffer_from, bind, ret.
  destruct (Z.eqb_spec src_len 0) as [|_]; [contradiction|].
  rewrite malloc_run.
  destruct (fst (next_request h)); [|reflexivity].
  rewrite malloc_run.
  destruct (fst (next_request (snd (next_request h)))); [|reflexivity].
  rewrite memcpy_heap_run. reflexivity.
Qed.

Lemma allocations_succeed_twice h :
  allocations_succeed 2 h = true ->
  fst (next_request h) = true
  /\ fst (next_request (snd (next_request h))) = true.
Proof.
  intros H. apply allocations_succeed_step in H. destruct H as [H1 H].
  apply allocations_succeed_step in H. destruct H as [H2 _].
  split; assumption.
Qed.

Lemma alloc_wf cap h b :
  is_size_t cap -> fst (cbuffer_alloc cap h) = Some b ->
  wf b /\ byte_length b = 0
  /\ capacity b = (if 0 <? cap then cap else CBUFFER_DEFAULT_CAPACITY).
Proof.
  intros Hcap. rewrite alloc_run.
  destruct (fst (next_request h)); [|discriminate].
  destruct (fst (next_request (snd (next_request h)))); [|discriminate].
  cbn [fst]. intros [= <-].
  unfold wf, invariant, is_size_t in *. cbn [byte_length capacity data].
  rewrite fresh_length.
  unfold CBUFFER_DEFAULT_CAPACITY, SIZE_WIDTH in *.
  destruct (Z.ltb_spec 0 cap); lia.
Qed.

Lemma alloc_succeeds cap h :
  allocations_succeed 2 h = true ->
  exists b h', cbuffer_alloc cap h = (Some b, h').
Proof.
  intros Hok. destruct (allocations_succeed_twice h Hok) as [H1 H2].
  rewrite alloc_run, H1, H2. eexists _, _. reflexivity.
Qed.

Lemma from_wf source src_len h b :
  is_size_t src_len -> fst (cbuffer_from source src_len h) = Some b -> wf b.
Proof.
  intros Hlen Hrun.
  assert (Hdefault : forall h0 b0,
             fst (cbuffer_alloc CBUFFER_DEFAULT_CAPACITY h0) = Some b0 -> wf b0).
  { intros h0 b0 H. apply (alloc_wf CBUFFER_DEFAULT_CAPACITY h0 b0); [concrete | exact H]. }
  destruct source as [src|]; [|apply (Hdefault h); exact Hrun].
  destruct (Z.eq_dec src_len 0) as [Hz | Hnz].
  - unfold cbuffer_from in Hrun. rewrite Hz in Hrun. cbn [Z.eqb] in Hrun.
    apply (Hdefault h). exact Hrun.
  - rewrite from_run in Hrun by exact Hnz.
    destruct (fst (next_request h)); [|discriminate].
    destruct (fst (next_request (snd (next_request h)))); [|discriminate].
    cbn [fst] in Hrun.
    remember (fst (memcpy _ _ _ _)) as d eqn:Hd in Hrun.
    injection Hrun as <-.
    unfold wf, invariant, is_size_t in *. cbn [byte_length capacity data].
    rewrite Hd, memcpy_length, fresh_length by lia. lia.
Qed.

(** A copy of [src_len] bytes the source really holds. *)
Lemma from_copies src src_len h :
  allocations_succeed 2 h = true ->
  0 < src_len -> src_len <= Z.of_nat (length src) ->
  exists c h',
    cbuffer_from (Some src) src_len h = (Some c, h')
    /\ byte_length c = src_len /\ capacity c = src_len
    /\ used_bytes c = firstn (Z.to_nat src_len) src
    /\ corrupted h' = corrupted h.
Proof.
  intros Hok Hpos Hsrc. destruct (allocations_succeed_twice h Hok) as [H1 H2].
  rewrite from_run, H1, H2 by lia.
  eexists _, _. split; [reflexivity|].
  split; [reflexivity|]. split; [reflexivity|]. split.
  - unfold used_bytes. cbn [byte_length data].
    change src_len with (0 + src_len) at 1.
    rewrite memcpy_appends; [reflexivity | lia | lia | | exact Hsrc].
    rewrite fresh_length. lia.
  - cbn [corrupted]. rewrite memcpy_in_bounds.
    + rewrite orb_false_r.
      destruct (next_request_keeps (snd (next_request h))) as [_ ->].
      apply next_request_keeps.
    + rewrite fresh_length. lia.
    + exact Hsrc.
Qed.

Lemma bytes_eqb_refl xs : bytes_eqb xs xs = true.
Proof.
  induction xs as [|x xs IH]; [reflexivity|].
  cbn. rewrite IH, Byte.byte_dec_lb; reflexivity.
Qed.

Lemma bytes_eqb_eq xs ys : bytes_eqb xs ys = true -> xs = ys.
Proof.
  revert ys. induction xs as [|x xs IH]; intros [|y ys]; cbn; try discriminate.
  - reflexivity.
  - intros H. apply andb_true_iff in H. destruct H as [Hxy Hrest].
    apply Byte.byte_dec_bl in Hxy. f_equal; [exact Hxy | apply IH; exact Hrest].
Qed.

Lemma cbuffer_equals_spec a b :
  cbuffer_equals a b = true
  <-> byte_length a = byte_length b /\ used_bytes a = used_bytes b.
Proof.
  unfold cbuffer_equals. rewrite andb_true_iff, Z.eqb_eq. split.
  - intros [Hlen Hbytes]. split; [exact Hlen | apply bytes_eqb_eq; exact Hbytes].
  - intros [Hlen Hbytes]. split; [exact Hlen|]. rewrite Hbytes. apply bytes_eqb_refl.
Qed.

(** C5, as the code has it.  When its two allocations succeed,
    [cbuffer_clone] returns a buffer with the length and the bytes of the
    original, equal to it under [cbuffer_equals]; the capacity of the copy is
    its length when the original holds at least one byte, and the default
    capacity when the original is empty. *)
Theorem clone_copies b h :
  wf b -> allocations_succeed 2 h = true ->
  exists c h',
    cbuffer_clone (Some b) h = (Some c, h')
    /\ wf c
    /\ byte_length c = byte_length b
    /\ used_bytes c = used_bytes b
    /\ cbuffer_equals b c = true
    /\ (0 < byte_length b -> capacity c = byte_length c)
    /\ (byte_length b = 0 -> capacity c = CBUFFER_DEFAULT_CAPACITY).
Proof.
  intros Hwf Hok. pose proof Hwf as (Hinv & Hcap & Hblock).
  unfold invariant in Hinv. unfold cbuffer_clone.
  assert (Hsz : is_size_t (byte_length b)) by (unfold is_size_t; lia).
  destruct (Z.eq_dec (byte_length b) 0) as [Hz | Hnz].
  - unfold cbuffer_from. rewrite Hz. cbn [Z.eqb].
    destruct (alloc_succeeds CBUFFER_DEFAULT_CAPACITY h Hok) as (c & h' & Hrun).
    destruct (alloc_wf CBUFFER_DEFAULT_CAPACITY h c ltac:(concrete)
                ltac:(rewrite Hrun; reflexivity)) as (Hwfc & Hlen & Hcapc).
    exists c, h'. split; [exact Hrun|]. split; [exact Hwfc|].
    split; [exact Hlen|].
    assert (Hbytes : used_bytes c = used_bytes b).
    { unfold used_bytes. rewrite Hlen, Hz. reflexivity. }
    split; [exact Hbytes|]. split.
    + apply cbuffer_equals_spec. split; [lia | symmetry; exact Hbytes].
    + split; [lia | intros _; exact Hcapc].
  - destruct (from_copies (data b) (byte_length b) h Hok ltac:(lia) ltac:(lia))
      as (c & h' & Hrun & Hlen & Hcapc & Hbytes & _).
    exists c, h'. split; [exact Hrun|].
    split; [apply (from_wf (Some (data b)) (byte_length b) h); [exact Hsz | rewrite Hrun; reflexivity]|].
    split; [exact Hlen|]. split; [exact Hbytes|]. split.
    + apply cbuffer_equals_spec. split; [lia | symmetry; exact Hbytes].
    + split; [intros _; lia | intros H; contradiction].
Qed.

Lemma clone_copies_witness :
  wf (buffer_of [1; 2; 3])
  /\ allocations_succeed 2 quiet_heap = true
  /\ exists c h',
      cbuffer_clone (Some (buffer_of [1; 2; 3])) quiet_heap = (Some c, h')
      /\ used_bytes c = bytes_of [1; 2; 3]
      /\ capacity c = 3.
Proof.
  assert (Hwf : wf (buffer_of [1; 2; 3])) by concrete.
  split; [exact Hwf|]. split; [reflexivity|].
  destruct (clone_copies (buffer_of [1; 2; 3]) quiet_heap Hwf eq_refl)
    as (c & h' & Hrun & _ & Hlen & Hbytes & _ & Hcap & _).
  exists c, h'. split; [exact Hrun|]. split; [exact Hbytes|].
  rewrite Hcap, Hlen; [reflexivity | concrete].
Defined.

(** The clone of an empty buffer has 64 bytes of capacity for its 0 bytes of
    content. *)
Lemma clone_of_empty_has_headroom :
  exists c h',
    cbuffer_clone (Some empty_buffer) quiet_heap = (Some c, h')
    /\ byte_length c = 0
    /\ capacity c = 64
    /\ capacity c <> byte_length c.
Proof. eexists _, _. vm_compute. repeat split. discriminate. Defined.

(** C7. With its allocations succeeding, [cbuffer_subarray] reads an end of
    0 or past the length as the length; it returns an empty buffer when the
    start is not below the length or not below that end, and otherwise a
    buffer holding the bytes in use from the start up to the end.  So
    [subarray(b, 1, 0)] of a buffer holding 10, 20, 30, 40, 50 holds
    20, 30, 40, 50. *)
Theorem subarray_copies :
  (forall b start end_ h,
      wf b -> is_size_t start -> is_size_t end_ ->
      allocations_succeed 2 h = true ->
      exists stop c h',
        (end_ = 0 \/ byte_length b < end_ -> stop = byte_length b)
        /\ (end_ <> 0 -> end_ <= byte_length b -> stop = end_)
        /\ cbuffer_subarray (Some b) start end_ h = (Some c, h')
        /\ wf c
        /\ (byte_length b <= start \/ stop <= start ->
            byte_length c = 0 /\ used_bytes c = [])
        /\ (start < byte_length b -> start < stop ->
            byte_length c = stop - start
            /\ used_bytes c = bytes_at (used_bytes b) start (stop - start)))
  /\ (forall b h,
         wf b -> used_bytes b = bytes_of [10; 20; 30; 40; 50] ->
         byte_length b = 5 ->
         allocations_succeed 2 h = true ->
         exists c h',
           cbuffer_subarray (Some b) 1 0 h = (Some c, h')
           /\ used_bytes c = bytes_of [20; 30; 40; 50]).
Proof.
  assert (Hgeneral : forall b start end_ h,
      wf b -> is_size_t start -> is_size_t end_ ->
      allocations_succeed 2 h = true ->
      exists stop c h',
        (end_ = 0 \/ byte_length b < end_ -> stop = byte_length b)
        /\ (end_ <> 0 -> end_ <= byte_length b -> stop = end_)
        /\ cbuffer_subarray (Some b) start end_ h = (Some c, h')
        /\ wf c
        /\ (byte_length b <= start \/ stop <= start ->
            byte_length c = 0 /\ used_bytes c = [])
        /\ (start < byte_length b -> start < stop ->
            byte_length c = stop - start
            /\ used_bytes c = bytes_at (used_bytes b) start (stop - start))).
  { intros b start end_ h Hwf Hstart Hend Hok.
    pose proof Hwf as (Hinv & Hcap & Hblock).
    unfold invariant, is_size_t in *.
    exists (if (end_ =? 0) || (byte_length b <? end_) then byte_length b else end_).
    unfold cbuffer_subarray.
    set (stop := if (end_ =? 0) || (byte_length b <? end_) then byte_length b else end_).
    assert (Hstop1 : end_ = 0 \/ byte_length b < end_ -> stop = byte_length b).
    { subst stop. destruct (Z.eqb_spec end_ 0), (Z.ltb_spec (byte_length b) end_);
        cbn; lia. }
    assert (Hstop2 : end_ <> 0 -> end_ <= byte_length b -> stop = end_).
    { subst stop. destruct (Z.eqb_spec end_ 0), (Z.ltb_spec (byte_length b) end_);
        cbn; lia. }
    assert (Hstop : 0 <= stop <= byte_length b).
    { destruct (Z.eq_dec end_ 0); [rewrite Hstop1; lia|].
      destruct (Z.le_gt_cases end_ (byte_length b)); [rewrite Hstop2 | rewrite Hstop1]; lia. }
    clearbody stop.
    destruct ((byte_length b <=? start) || (stop <=? start)) eqn:Hempty.
    - destruct (alloc_succeeds 0 h Hok) as (c & h' & Hrun).
      destruct (alloc_wf 0 h c ltac:(concrete) ltac:(rewrite Hrun; reflexivity))
        as (Hwfc & Hlen & _).
      exists c, h'. repeat (split; [assumption|]). split.
      + intros _. split; [exact Hlen|]. unfold used_bytes. rewrite Hlen. reflexivity.
      + apply orb_true_iff in Hempty. rewrite !Z.leb_le in Hempty. lia.
    - apply orb_false_iff in Hempty. rewrite !Z.leb_gt in Hempty.
      destruct (from_copies (skipn (Z.to_nat start) (data b)) (stop - start) h Hok)
        as (c & h' & Hrun & Hlen & _ & Hbytes & _); [lia | rewrite length_skipn; lia |].
      exists c, h'. repeat (split; [assumption|]).
      split; [|split].
      + apply (from_wf (Some (skipn (Z.to_nat start) (data b))) (stop - start) h);
          [unfold is_size_t; lia | rewrite Hrun; reflexivity].
      + lia.
      + intros _ _. split; [exact Hlen|]. rewrite Hbytes.
        unfold used_bytes. rewrite bytes_at_used by lia. reflexivity. }
  split; [exact Hgeneral|].
  intros b h Hwf Hbytes Hlen Hok.
  destruct (Hgeneral b 1 0 h Hwf ltac:(concrete) ltac:(concrete) Hok)
    as (stop & c & h' & Hstop & _ & Hrun & _ & _ & Hslice).
  rewrite (Hstop (or_introl eq_refl)), Hlen in Hslice.
  destruct (Hslice ltac:(lia) ltac:(lia)) as [_ Hc].
  exists c, h'. split; [exact Hrun|]. rewrite Hc, Hbytes. reflexivity.
Qed.

Lemma subarray_copies_witness :
  wf (buffer_of [10; 20; 30; 40; 50])
  /\ allocations_succeed 2 quiet_heap = true
  /\ exists c h',
      cbuffer_subarray (Some (buffer_of [10; 20; 30; 40; 50])) 1 0 quiet_heap
      = (Some c, h')
      /\ used_bytes c = bytes_of [20; 30; 40; 50].
Proof.
  assert (Hwf : wf (buffer_of [10; 20; 30; 40; 50])) by concrete.
  split; [exact Hwf|]. split; [reflexivity|].
  exact (proj2 subarray_copies (buffer_of [10; 20; 30; 40; 50]) quiet_heap
           Hwf eq_refl eq_refl eq_refl).
Defined.

(** ** The representation invariant *)

Lemma wf_invariant b : wf b -> invariant b.
Proof. intros (Hinv & _). exact Hinv. Qed.

Lemma clone_wf b h c :
  wf b -> fst (cbuffer_clone (Some b) h) = Some c -> wf c.
Proof.
  intros (Hinv & Hcap & _) Hrun. unfold invariant in Hinv.
  apply (from_wf (Some (data b)) (byte_length b) h); [|exact Hrun].
  unfold is_size_t. lia.
Qed.

Lemma subarray_wf b start end_ h c :
  wf b -> is_size_t start -> is_size_t end_ ->
  fst (cbuffer_subarray (Some b) start end_ h) = Some c -> wf c.
Proof.
  intros (Hinv & Hcap & _) Hstart Hend. unfold invariant, is_size_t in *.
  unfold cbuffer_subarray.
  set (stop := if (end_ =? 0) || (byte_length b <? end_) then byte_length b else end_).
  assert (Hstop : 0 <= stop <= byte_length b).
  { subst stop. destruct (Z.eqb_spec end_ 0), (Z.ltb_spec (byte_length b) end_);
      cbn; lia. }
  clearbody stop.
  destruct ((byte_length b <=? start) || (stop <=? start)) eqn:Hempty; intros Hrun.
  - apply (alloc_wf 0 h c); [concrete | exact Hrun].
  - apply orb_false_iff in Hempty. rewrite !Z.leb_gt in Hempty.
    apply (from_wf (Some (skipn (Z.to_nat start) (data b))) (stop - start) h);
      [unfold is_size_t; lia | exact Hrun].
Qed.

Lemma ensure_capacity_wf fuel b size h :
  wf b -> is_size_t size -> (65 <= fuel)%nat ->
  exists rc b' h',
    cbuffer_ensure_capacity fuel (Some b) size h = Some ((rc, Some b'), h')
    /\ wf b'
    /\ (rc <> 0 -> b' = b)
    /\ (rc <> 0 <-> capacity b < size /\ fst (next_request h) = false).
Proof.
  intros Hwf Hsize Hfuel.
  destruct (Z.le_gt_cases size (capacity b)) as [Hfit | Hgrow].
  - exists 0, b, h. rewrite ensure_capacity_enough by exact Hfit.
    split; [reflexivity|]. split; [exact Hwf|]. split; [congruence|].
    split; [congruence | lia].
  - destruct (ensure_capacity_grows fuel b size h Hwf Hsize Hfuel Hgrow)
      as (target & _ & Hreach & Hrange & Hrun).
    rewrite Hrun. destruct (fst (next_request h)).
    + eexists _, _, _. split; [reflexivity|]. split.
      * destruct Hwf as (Hinv & Hcap & Hblock).
        unfold wf, invariant, is_size_t in *. cbn [byte_length capacity data].
        rewrite grown_block_length. lia.
      * split; [congruence|]. split; [congruence | intros [_ H]; discriminate].
    + eexists _, _, _. split; [reflexivity|]. split; [exact Hwf|].
      split; [reflexivity|]. split; [intros _; split; [lia | reflexivity] | lia].
Qed.

Lemma write_wf fuel b source src_len h :
  wf b -> is_size_t src_len -> (65 <= fuel)%nat ->
  exists rc b' h',
    cbuffer_write fuel (Some b) source src_len h = Some ((rc, Some b'), h')
    /\ wf b'
    /\ (source <> None -> src_len <> 0 ->
        capacity b < size_t_wrap (byte_length b + src_len) ->
        fst (next_request h) = false ->
        rc = -1 /\ b' = b).
Proof.
  intros Hwf Hsz Hfuel.
  destruct source as [src|];
    [|exists 0, b, h; split; [reflexivity|]; split; [exact Hwf | congruence]].
  destruct (Z.eq_dec src_len 0) as [-> | Hnz];
    [exists 0, b, h; split; [reflexivity|]; split; [exact Hwf | congruence]|].
  destruct (write_cases fuel b src src_len h Hwf Hsz Hnz Hfuel)
    as [(h' & _ & _ & _ & Hrun)
       | (b1 & h1 & _ & Hok & _ & Hwf1 & Hreach & Hlen1 & _ & _ & Hrun)].
  - exists (-1), b, h'. split; [exact Hrun|]. split; [exact Hwf|]. auto.
  - eexists _, _, _. split; [exact Hrun|]. split.
    + destruct Hwf as (Hinv & _). destruct Hwf1 as (Hinv1 & Hcap1 & Hblock1).
      pose proof (size_t_wrap_range (byte_length b + src_len)) as Htr.
      unfold wf, invariant, is_size_t in *. cbn [byte_length capacity data].
      rewrite memcpy_length by lia. lia.
    + intros _ _ Hgrow Hfail. rewrite (Hok Hgrow) in Hfail. discriminate.
Qed.

Lemma scalar_write_wf host T size swap_func b offset value :
  wf b -> 0 <= offset ->
  exists b',
    CBUFFER_WRITE_VALUE host T size swap_func (Some b) offset value = (0, Some b')
    /\ wf b'
    /\ byte_length b' = byte_length b /\ capacity b' = capacity b.
Proof.
  intros Hwf Hoff. unfold CBUFFER_WRITE_VALUE.
  destruct (negb (CBUFFER_BOUNDS_CHECK (Some b) offset size =? 0)).
  - exists b. repeat split; try reflexivity; apply Hwf.
  - eexists. split; [reflexivity|]. split; [|split; reflexivity].
    destruct Hwf as (Hinv & Hcap & Hblock).
    unfold wf, invariant, mempcy in *. cbn [byte_length capacity data].
    rewrite memcpy_length by exact Hoff. lia.
Qed.

(** C3. Every operation leaves the buffer it returns or mutates with
    [0 <= byte_length <= capacity] (and with a block of [capacity] bytes):
    the constructors and the derived buffers whenever they return one, the
    growth, the append and the scalar writes on any buffer that satisfied it.
    When the reallocation fails, [cbuffer_ensure_capacity] and
    [cbuffer_write] return -1 and the buffer is the one they were given. *)
Theorem operations_keep_invariant :
  (forall b, wf b -> invariant b)
  /\ (forall cap h b,
         is_size_t cap -> fst (cbuffer_alloc cap h) = Some b -> wf b)
  /\ (forall source src_len h b,
         is_size_t src_len -> fst (cbuffer_from source src_len h) = Some b -> wf b)
  /\ (forall b h c,
         wf b -> fst (cbuffer_clone (Some b) h) = Some c -> wf c)
  /\ (forall b start end_ h c,
         wf b -> is_size_t start -> is_size_t end_ ->
         fst (cbuffer_subarray (Some b) start end_ h) = Some c -> wf c)
  /\ (forall fuel b size h,
         wf b -> is_size_t size -> (65 <= fuel)%nat ->
         exists rc b' h',
           cbuffer_ensure_capacity fuel (Some b) size h = Some ((rc, Some b'), h')
           /\ wf b'
           /\ (rc <> 0 -> b' = b)
           /\ (rc <> 0 <-> capacity b < size /\ fst (next_request h) = false))
  /\ (forall fuel b source src_len h,
         wf b -> is_size_t src_len -> (65 <= fuel)%nat ->
         exists rc b' h',
           cbuffer_write fuel (Some b) source src_len h = Some ((rc, Some b'), h')
           /\ wf b'
           /\ (source <> None -> src_len <> 0 ->
               capacity b < size_t_wrap (byte_length b + src_len) ->
               fst (next_request h) = false ->
               rc = -1 /\ b' = b))
  /\ (forall host T reorder b offset value,
         wf b -> 0 <= offset ->
         exists b',
           writeUint host T reorder (Some b) offset value = (0, Some b')
           /\ wf b'
           /\ byte_length b' = byte_length b /\ capacity b' = capacity b).
Proof.
  split; [exact wf_invariant|].
  split; [intros cap h b Hcap Hrun; apply (alloc_wf cap h b Hcap Hrun)|].
  split; [exact from_wf|].
  split; [exact clone_wf|].
  split; [exact subarray_wf|].
  split; [exact ensure_capacity_wf|].
  split; [exact write_wf|].
  intros host T reorder. apply scalar_write_wf.
Qed.

Lemma operations_keep_invariant_witness :
  wf (buffer_of [1; 2; 3])
  /\ is_size_t 9
  /\ fst (next_request (mkHeap [false] (fun _ => Byte.x00) false)) = false
  /\ exists rc b' h',
      cbuffer_write 65 (Some (buffer_of [1; 2; 3])) (Some (bytes_of [4; 5; 6; 7; 8; 9]))
        6 (mkHeap [false] (fun _ => Byte.x00) false)
      = Some ((rc, Some b'), h')
      /\ invariant b' /\ rc = -1 /\ b' = buffer_of [1; 2; 3].
Proof.
  assert (Hwf : wf (buffer_of [1; 2; 3])) by concrete.
  assert (Hsz : is_size_t 6) by concrete.
  split; [exact Hwf|]. split; [concrete|]. split; [reflexivity|].
  destruct operations_keep_invariant as (Hinv & _ & _ & _ & _ & _ & Hwrite & _).
  destruct (Hwrite 65%nat (buffer_of [1; 2; 3]) (Some (bytes_of [4; 5; 6; 7; 8; 9]))
              6 (mkHeap [false] (fun _ => Byte.x00) false) Hwf Hsz (le_n 65))
    as (rc & b' & h' & Hrun & Hwf' & Hfail).
  exists rc, b', h'. split; [exact Hrun|]. split; [apply Hinv; exact Hwf'|].
  apply Hfail; [discriminate | lia | vm_compute; reflexivity | reflexivity].
Defined.

(** ** Byte order *)

Ltac bytes_as_masked :=
  repeat match goal with
         | |- context [byte.unsigned ?b] =>
             is_var b;
             rewrite <- (byte.wrap_unsigned b); unfold byte.wrap;
             generalize (byte.unsigned b); clear b; intro
         end.

Lemma swap_endian_16_bytes b0 b1 :
  swap_endian_16 (le_combine [b0; b1]) = le_combine [b1; b0].
Proof.
  unfold swap_endian_16, wrap16. cbv [le_combine].
  bytes_as_masked.
  rewrite <- !Z.land_ones by lia.
  prove_Zeq_bitwise.
Qed.

Lemma swap_endian_32_bytes b0 b1 b2 b3 :
  swap_endian_32 (le_combine [b0; b1; b2; b3]) = le_combine [b3; b2; b1; b0].
Proof.
  unfold swap_endian_32, wrap32. cbv [le_combine].
  bytes_as_masked.
  rewrite <- !Z.land_ones by lia.
  change 0x0000FF00 with (Z.shiftl (Z.ones 8) 8).
  change 0x00FF0000 with (Z.shiftl (Z.ones 8) 16).
  prove_Zeq_bitwise.
Qed.

Lemma swap_endian_64_bytes b0 b1 b2 b3 b4 b5 b6 b7 :
  swap_endian_64 (le_combine [b0; b1; b2; b3; b4; b5; b6; b7])
  = le_combine [b7; b6; b5; b4; b3; b2; b1; b0].
Proof.
  unfold swap_endian_64, wrap64.
  change (map Z.of_nat (seq 0 0x8)) with [0; 1; 2; 3; 4; 5; 6; 7].
  cbv [le_combine fold_left].
  bytes_as_masked.
  rewrite <- !Z.land_ones by lia.
  change 0xFF with (Z.ones 8).
  prove_Zeq_bitwise.
Qed.

Lemma swap_endian_reverses T bs :
  length bs = Z.to_nat (sizeof T) ->
  swap_endian T (le_combine bs) = le_combine (rev bs).
Proof.
  intros Hlen.
  destruct T; cbn in Hlen;
    repeat (destruct bs as [|? bs]; try discriminate Hlen).
  - apply swap_endian_16_bytes.
  - apply swap_endian_32_bytes.
  - apply swap_endian_64_bytes.
Qed.

Lemma swap_endian_load host T bs :
  length bs = Z.to_nat (sizeof T) ->
  swap_endian T (load_native host bs) = load_native host (rev bs).
Proof.
  intros Hlen. destruct host; unfold load_native.
  - apply swap_endian_reverses. exact Hlen.
  - apply swap_endian_reverses. rewrite length_rev. exact Hlen.
Qed.

Lemma swap_for_load host T reorder bs :
  length bs = Z.to_nat (sizeof T) ->
  swap_for T reorder (load_native host bs)
  = load_native host (if reorder then rev bs else bs).
Proof.
  intros Hlen. destruct reorder; [|reflexivity].
  apply swap_endian_load. exact Hlen.
Qed.

Lemma swap_for_involutive host T reorder bs :
  length bs = Z.to_nat (sizeof T) ->
  swap_for T reorder (swap_for T reorder (load_native host bs))
  = load_native host bs.
Proof.
  intros Hlen. destruct reorder; [|reflexivity]. unfold swap_for.
  rewrite !swap_endian_load by (rewrite ?length_rev; exact Hlen).
  rewrite rev_involutive. reflexivity.
Qed.

Lemma store_load_native host bs :
  store_native host (length bs) (load_native host bs) = bs.
Proof.
  destruct host; unfold store_native, load_native.
  - apply split_le_combine.
  - rewrite <- (length_rev bs), split_le_combine. apply rev_involutive.
Qed.

(** ** Scalar access *)

Lemma bounds_check_fails buffer offset size :
  CBUFFER_BOUNDS_CHECK buffer offset size <> 0
  <-> buffer = None
      \/ exists b, buffer = Some b
                   /\ (byte_length b < offset \/ byte_length b - offset < size).
Proof.
  unfold CBUFFER_BOUNDS_CHECK. split.
  - intros Hne. destruct buffer as [b|]; [right | left; reflexivity].
    exists b. split; [reflexivity|].
    destruct (Z.leb_spec offset (byte_length b)); [|lia].
    destruct (Z.leb_spec size (byte_length b - offset)); [|lia].
    cbn in Hne. congruence.
  - intros [-> | (b & -> & Hout)]; [discriminate|].
    destruct (Z.leb_spec offset (byte_length b));
      destruct (Z.leb_spec size (byte_length b - offset));
      cbn; try discriminate; lia.
Qed.

Lemma bounds_check_values buffer offset size :
  CBUFFER_BOUNDS_CHECK buffer offset size = 0
  \/ CBUFFER_BOUNDS_CHECK buffer offset size = -1.
Proof.
  unfold CBUFFER_BOUNDS_CHECK. destruct buffer as [b|]; [|right; reflexivity].
  destruct (_ && _); [left | right]; reflexivity.
Qed.

(** C1, as the code has it.  Whatever type, size and swap function the
    macros are expanded with, the bounds check fails exactly when the buffer
    is absent, the offset is past the length, or fewer than [size] bytes are
    left after the offset.  A scalar read whose check fails returns 0, the
    number a read of zero bytes returns; a scalar write returns 0 whether
    its check fails or not, and leaves the buffer alone when it fails. *)
Theorem scalar_failure_returns_zero host T size swap_func buffer offset value :
  (CBUFFER_BOUNDS_CHECK buffer offset size <> 0
   <-> buffer = None
       \/ exists b, buffer = Some b
                    /\ (byte_length b < offset
                        \/ byte_length b - offset < size))
  /\ (CBUFFER_BOUNDS_CHECK buffer offset size <> 0 ->
      CBUFFER_READ_VALUE host T size swap_func buffer offset = 0
      /\ CBUFFER_WRITE_VALUE host T size swap_func buffer offset value
         = (0, buffer))
  /\ fst (CBUFFER_WRITE_VALUE host T size swap_func buffer offset value) = 0.
Proof.
  split; [apply bounds_check_fails|].
  unfold CBUFFER_READ_VALUE, CBUFFER_WRITE_VALUE.
  split.
  - intros Hfail.
    destruct (Z.eqb_spec (CBUFFER_BOUNDS_CHECK buffer offset size) 0);
      [contradiction|].
    split; reflexivity.
  - destruct (negb _); [reflexivity|]. destruct buffer; reflexivity.
Qed.

Lemma scalar_failure_returns_zero_witness :
  CBUFFER_BOUNDS_CHECK (Some (buffer_of [1; 2; 3])) 2 (sizeof U16) <> 0
  /\ readUint LittleEndian U16 false (Some (buffer_of [1; 2; 3])) 2 = 0
  /\ writeUint LittleEndian U16 false (Some (buffer_of [1; 2; 3])) 2 0xBEEF
     = (0, Some (buffer_of [1; 2; 3])).
Proof.
  assert (Hfail : CBUFFER_BOUNDS_CHECK (Some (buffer_of [1; 2; 3])) 2 (sizeof U16) <> 0)
    by (vm_compute; discriminate).
  split; [exact Hfail|].
  exact (proj1 (proj2 (scalar_failure_returns_zero LittleEndian U16 (sizeof U16)
                         (swap_for U16 false)
                         (Some (buffer_of [1; 2; 3])) 2 0xBEEF)) Hfail).
Defined.

(** A 16-bit read of two zero bytes and a 16-bit read that fails its bounds
    check return the same number, and so do the two writes. *)
Lemma scalar_failure_is_a_plain_zero :
  CBUFFER_BOUNDS_CHECK (Some (buffer_of [0; 0])) 0 (sizeof U16) = 0
  /\ CBUFFER_BOUNDS_CHECK (Some (buffer_of [0; 0])) 1 (sizeof U16) = -1
  /\ readUint LittleEndian U16 false (Some (buffer_of [0; 0])) 1
     = readUint LittleEndian U16 false (Some (buffer_of [0; 0])) 0
  /\ fst (writeUint LittleEndian U16 false (Some (buffer_of [0; 0])) 1 7)
     = fst (writeUint LittleEndian U16 false (Some (buffer_of [0; 0])) 0 7).
Proof. vm_compute. repeat split. Defined.

(** C6. On a well-formed buffer a scalar read at an offset above
    [byte_length - N/8] takes the failure exit of its bounds check.  At any
    other offset it returns the number the [N/8] bytes in use at the offset
    stand for in the byte order of the machine, reversed first when the
    requested order is the other one, and writing that number back at the
    same offset in the same order leaves every byte of the buffer as it was. *)
Theorem scalar_read_write_round_trip host T reorder b offset :
  wf b -> 0 <= offset ->
  (byte_length b - sizeof T < offset ->
   CBUFFER_BOUNDS_CHECK (Some b) offset (sizeof T) = -1
   /\ readUint host T reorder (Some b) offset = 0)
  /\ (offset <= byte_length b - sizeof T ->
      CBUFFER_BOUNDS_CHECK (Some b) offset (sizeof T) = 0
      /\ Z.of_nat (length (bytes_at (used_bytes b) offset (sizeof T))) = sizeof T
      /\ readUint host T reorder (Some b) offset
         = load_native host
             (if reorder then rev (bytes_at (used_bytes b) offset (sizeof T))
              else bytes_at (used_bytes b) offset (sizeof T))
      /\ writeUint host T reorder (Some b) offset
           (readUint host T reorder (Some b) offset)
         = (0, Some b)).
Proof.
  intros (Hinv & Hcap & Hblock) Hoff. unfold invariant in Hinv.
  assert (Hsize : 0 < sizeof T) by (destruct T; cbn; lia).
  split.
  - intros Hpast.
    assert (Hfail : CBUFFER_BOUNDS_CHECK (Some b) offset (sizeof T) <> 0).
    { apply bounds_check_fails. right. exists b. split; [reflexivity | lia]. }
    split.
    + destruct (bounds_check_values (Some b) offset (sizeof T)); [contradiction | assumption].
    + unfold readUint, CBUFFER_READ_VALUE.
      destruct (Z.eqb_spec (CBUFFER_BOUNDS_CHECK (Some b) offset (sizeof T)) 0);
        [contradiction | reflexivity].
  - intros Hin.
    assert (Hcheck : CBUFFER_BOUNDS_CHECK (Some b) offset (sizeof T) = 0).
    { unfold CBUFFER_BOUNDS_CHECK.
      destruct (Z.leb_spec offset (byte_length b)); [|lia].
      destruct (Z.leb_spec (sizeof T) (byte_length b - offset)); [reflexivity | lia]. }
    assert (Hslice : bytes_at (used_bytes b) offset (sizeof T)
                     = bytes_at (data b) offset (sizeof T)).
    { unfold used_bytes. apply bytes_at_used; lia. }
    assert (Hlen : length (bytes_at (data b) offset (sizeof T)) = Z.to_nat (sizeof T)).
    { apply bytes_at_length; lia. }
    assert (Hread : readUint host T reorder (Some b) offset
                    = swap_for T reorder
                        (load_native host (bytes_at (data b) offset (sizeof T)))).
    { unfold readUint, CBUFFER_READ_VALUE. rewrite Hcheck. reflexivity. }
    split; [exact Hcheck|]. rewrite Hslice.
    split; [rewrite Hlen; lia|].
    split; [rewrite Hread; apply swap_for_load; exact Hlen|].
    rewrite Hread. unfold writeUint, CBUFFER_WRITE_VALUE, mempcy. rewrite Hcheck.
    cbn [negb Z.eqb]. rewrite swap_for_involutive by exact Hlen.
    rewrite <- Hlen, store_load_native, memcpy_slice_back by lia.
    destruct b. reflexivity.
Qed.

Lemma scalar_read_write_round_trip_witness :
  wf (buffer_of [0x12; 0x34; 0x56; 0x78; 0x9A])
  /\ readUint LittleEndian U32 true (Some (buffer_of [0x12; 0x34; 0x56; 0x78; 0x9A])) 1
     = 0x3456789A
  /\ writeUint LittleEndian U32 true (Some (buffer_of [0x12; 0x34; 0x56; 0x78; 0x9A])) 1
       (readUint LittleEndian U32 true
          (Some (buffer_of [0x12; 0x34; 0x56; 0x78; 0x9A])) 1)
     = (0, Some (buffer_of [0x12; 0x34; 0x56; 0x78; 0x9A])).
Proof.
  assert (Hwf : wf (buffer_of [0x12; 0x34; 0x56; 0x78; 0x9A])) by concrete.
  split; [exact Hwf|].
  destruct (scalar_read_write_round_trip LittleEndian U32 true
              (buffer_of [0x12; 0x34; 0x56; 0x78; 0x9A]) 1 Hwf ltac:(lia))
    as [_ Hin].
  destruct (Hin ltac:(cbn; lia)) as (_ & _ & Hread & Hback).
  split; [rewrite Hread; vm_compute; reflexivity | exact Hback].
Defined.

(** ** The AEAD mode table *)

Lemma string_compare_refl s : String.compare s s = Eq.
Proof.
  pose proof (String.compare_antisym s s) as H.
  destruct (String.compare s s); [reflexivity | discriminate | discriminate].
Qed.

Lemma strcmp_zero a b : (strcmp a b =? 0) = true <-> a = b.
Proof.
  unfold strcmp. split.
  - destruct (String.compare a b) eqn:Hcmp; try discriminate.
    intros _. apply String.compare_eq_iff. exact Hcmp.
  - intros ->. rewrite string_compare_refl. reflexivity.
Qed.

Lemma strcmp_differs a b : a <> b -> (strcmp a b =? 0) = false.
Proof.
  intros Hne. destruct (strcmp a b =? 0) eqn:Hcmp; [|reflexivity].
  apply strcmp_zero in Hcmp. contradiction.
Qed.

Lemma aead_aes_spellings mode :
  aead_aes (Some mode) =
  if string_dec mode "ccm" then Some AEAD_AES_CCM_MODE
  else if string_dec mode "CCM" then Some AEAD_AES_CCM_MODE
  else if string_dec mode "gcm" then Some AEAD_AES_GCM_MODE
  else if string_dec mode "GCM" then Some AEAD_AES_GCM_MODE
  else None.
Proof.
  unfold aead_aes.
  destruct (string_dec mode "ccm") as [-> | H1]; [reflexivity|].
  rewrite (strcmp_differs _ _ H1).
  destruct (string_dec mode "CCM") as [-> | H2]; [reflexivity|].
  rewrite (strcmp_differs _ _ H2).
  destruct (string_dec mode "gcm") as [-> | H3]; [reflexivity|].
  rewrite (strcmp_differs _ _ H3).
  destruct (string_dec mode "GCM") as [-> | H4]; [reflexivity|].
  rewrite (strcmp_differs _ _ H4). reflexivity.
Qed.

Ltac spellings :=
  rewrite aead_aes_spellings in *;
  repeat match goal with
         | |- context [string_dec ?a ?b] => destruct (string_dec a b)
         | H : context [string_dec ?a ?b] |- _ => destruct (string_dec a b)
         end;
  subst; intuition (discriminate || congruence).

(** C8, as the code has it.  [aead_aes] finds the GCM descriptor for the
    spellings "gcm" and "GCM" and the CCM descriptor for "ccm" and "CCM", and
    nothing for any other string, "xts" among them; the GCM descriptor has an
    IV of 12 bytes, a tag of 16 and the key sizes 16, 24 and 32. *)
Theorem aead_aes_lookup :
  (forall mode,
      aead_aes (Some mode) = Some AEAD_AES_GCM_MODE
      <-> mode = "gcm"%string \/ mode = "GCM"%string)
  /\ (forall mode,
         aead_aes (Some mode) = Some AEAD_AES_CCM_MODE
         <-> mode = "ccm"%string \/ mode = "CCM"%string)
  /\ (forall mode,
         aead_aes (Some mode) = None
         <-> mode <> "gcm"%string /\ mode <> "GCM"%string
             /\ mode <> "ccm"%string /\ mode <> "CCM"%string)
  /\ iv_length AEAD_AES_GCM_MODE = 12
  /\ tag_length AEAD_AES_GCM_MODE = 16
  /\ allowed_key_sizes AEAD_AES_GCM_MODE = [16; 24; 32]
  /\ allowed_key_sizes_count AEAD_AES_GCM_MODE = 3
  /\ aead_aes (Some "xts"%string) = None.
Proof.
  assert (Hdistinct : AEAD_AES_CCM_MODE <> AEAD_AES_GCM_MODE) by discriminate.
  repeat split; try reflexivity; intros; spellings.
Qed.

Lemma aead_aes_lookup_witness :
  aead_aes (Some "GCM"%string) = Some AEAD_AES_GCM_MODE
  /\ aead_aes (Some "Ccm"%string) = None.
Proof.
  destruct aead_aes_lookup as (Hgcm & _ & Hnone & _).
  split.
  - apply Hgcm. right. reflexivity.
  - apply Hnone. repeat split; discriminate.
Defined.

(** "Gcm" is a case variant of "gcm" and finds no descriptor. *)
Lemma aead_aes_mixed_case_not_found :
  case_variant "Gcm" "gcm" /\ aead_aes (Some "Gcm"%string) = None.
Proof. split; reflexivity. Defined.

(** * Further properties of the code *)

(** ** The byte swaps *)

Lemma swap_endian_wraps_argument T v :
  swap_endian T v = swap_endian T (v mod 2 ^ bits T).
Proof.
  destruct T; cbn [swap_endian bits sizeof];
    unfold swap_endian_16, swap_endian_32, swap_endian_64, wrap16, wrap32, wrap64;
    change (8 * 2) with 16; change (8 * 4) with 32; change (8 * 8) with 64;
    rewrite Z.mod_mod by lia; reflexivity.
Qed.

Lemma le_combine_split_scalar T v :
  le_combine (le_split (Z.to_nat (sizeof T)) v) = v mod 2 ^ bits T.
Proof.
  rewrite le_combine_split. f_equal. f_equal.
  unfold bits. destruct T; reflexivity.
Qed.

Lemma swap_endian_as_bytes T v :
  swap_endian T v = le_combine (rev (le_split (Z.to_nat (sizeof T)) v)).
Proof.
  rewrite swap_endian_wraps_argument, <- le_combine_split_scalar.
  apply swap_endian_reverses. apply length_le_split.
Qed.

(** X1. Each of [swap_endian_16], [swap_endian_32] and [swap_endian_64]
    returns, for any argument, the number whose bytes are the bytes of the
    argument (as converted to the parameter type) in reverse order, and the
    result fits the type. *)
Theorem swap_endian_reverses_the_bytes T v :
  le_split (Z.to_nat (sizeof T)) (swap_endian T v)
  = rev (le_split (Z.to_nat (sizeof T)) v)
  /\ 0 <= swap_endian T v < 2 ^ bits T.
Proof.
  rewrite swap_endian_as_bytes. split.
  - apply split_le_combine'. rewrite length_rev. apply length_le_split.
  - pose proof (le_combine_bound (rev (le_split (Z.to_nat (sizeof T)) v))) as Hb.
    rewrite length_rev, length_le_split in Hb.
    unfold bits. replace (8 * sizeof T) with (8 * Z.of_nat (Z.to_nat (sizeof T)))
      by (destruct T; reflexivity).
    exact Hb.
Qed.

Lemma swap_endian_twice T v :
  swap_endian T (swap_endian T v) = v mod 2 ^ bits T.
Proof.
  rewrite (swap_endian_as_bytes T (swap_endian T v)).
  rewrite (swap_endian_as_bytes T v) at 1.
  rewrite split_le_combine' by (rewrite length_rev; apply length_le_split).
  rewrite rev_involutive. apply le_combine_split_scalar.
Qed.

Lemma swap_endian_range T v : 0 <= swap_endian T v < 2 ^ bits T.
Proof.
  rewrite swap_endian_as_bytes.
  pose proof (le_combine_bound (rev (le_split (Z.to_nat (sizeof T)) v))) as Hb.
  rewrite length_rev, length_le_split in Hb.
  unfold bits. replace (8 * sizeof T) with (8 * Z.of_nat (Z.to_nat (sizeof T)))
    by (destruct T; reflexivity).
  exact Hb.
Qed.

(** X2. Swapping twice gives the argument back, reduced to the width of the
    type: the swaps are involutions on the values of their type, and two
    values of the type with the same swap are equal. *)
Theorem swap_endian_involutive T :
  (forall v, swap_endian T (swap_endian T v) = v mod 2 ^ bits T)
  /\ (forall v, 0 <= v < 2 ^ bits T -> swap_endian T (swap_endian T v) = v)
  /\ (forall v w, 0 <= v < 2 ^ bits T -> 0 <= w < 2 ^ bits T ->
                  swap_endian T v = swap_endian T w -> v = w).
Proof.
  split; [apply swap_endian_twice|]. split.
  - intros v Hv. rewrite swap_endian_twice. apply Z.mod_small. exact Hv.
  - intros v w Hv Hw Heq.
    rewrite <- (Z.mod_small v (2 ^ bits T)), <- (Z.mod_small w (2 ^ bits T))
      by assumption.
    rewrite <- !swap_endian_twice, Heq. reflexivity.
Qed.

Lemma swap_endian_involutive_witness :
  0 <= 0x1234 < 2 ^ bits U16
  /\ swap_endian U16 0x1234 = 0x3412
  /\ swap_endian U16 (swap_endian U16 0x1234) = 0x1234.
Proof.
  assert (Hv : 0 <= 0x1234 < 2 ^ bits U16) by (cbn; lia).
  split; [exact Hv|]. split; [vm_compute; reflexivity|].
  exact (proj1 (proj2 (swap_endian_involutive U16)) 0x1234 Hv).
Defined.

(** ** Scalar writes *)

Lemma memcpy_shape dst off src n :
  0 <= off -> 0 <= n ->
  off + n <= Z.of_nat (length dst) ->
  n <= Z.of_nat (length src) ->
  fst (memcpy dst off src n)
  = firstn (Z.to_nat off) dst ++ firstn (Z.to_nat n) src
      ++ skipn (Z.to_nat off + Z.to_nat n) dst.
Proof.
  intros Hoff Hn Hroom Hsrc. unfold memcpy. cbn [fst].
  rewrite Z.min_l by lia. rewrite length_firstn.
  do 3 f_equal. lia.
Qed.

Lemma bytes_at_window (before window after : list byte) off n :
  0 <= off -> 0 <= n ->
  length before = Z.to_nat off -> length window = Z.to_nat n ->
  bytes_at (before ++ window ++ after) off n = window.
Proof.
  intros Hoff Hn Hbefore Hwindow. unfold bytes_at.
  rewrite skipn_app, <- Hbefore, skipn_all, Nat.sub_diag. cbn [app skipn].
  rewrite firstn_app, <- Hwindow, firstn_all, Nat.sub_diag. cbn [firstn].
  apply app_nil_r.
Qed.

Lemma store_native_length host n v : length (store_native host n v) = n.
Proof.
  destruct host; unfold store_native; rewrite ?length_rev; apply length_le_split.
Qed.

Lemma load_store_native host T v :
  load_native host (store_native host (Z.to_nat (sizeof T)) v) = v mod 2 ^ bits T.
Proof.
  destruct host; unfold load_native, store_native;
    rewrite ?rev_involutive; apply le_combine_split_scalar.
Qed.

Lemma swap_for_twice T reorder v :
  swap_for T reorder (swap_for T reorder v mod 2 ^ bits T) = v mod 2 ^ bits T.
Proof.
  destruct reorder; unfold swap_for.
  - rewrite (Z.mod_small (swap_endian T v)) by apply swap_endian_range.
    apply swap_endian_twice.
  - reflexivity.
Qed.

Lemma sizeof_positive T : 0 < sizeof T.
Proof. destruct T; cbn; lia. Qed.

(** The buffer a scalar write inside the bytes in use leaves behind. *)
Lemma scalar_write_run host T reorder b offset value :
  wf b -> 0 <= offset -> offset <= byte_length b - sizeof T ->
  writeUint host T reorder (Some b) offset value
  = (0, Some (mkCBuffer (byte_length b) (capacity b)
                (firstn (Z.to_nat offset) (data b)
                 ++ store_native host (Z.to_nat (sizeof T)) (swap_for T reorder value)
                 ++ skipn (Z.to_nat offset + Z.to_nat (sizeof T)) (data b)))).
Proof.
  intros (Hinv & Hcap & Hblock) Hoff Hin. unfold invariant in Hinv.
  pose proof (sizeof_positive T) as Hsize.
  unfold writeUint, CBUFFER_WRITE_VALUE, CBUFFER_BOUNDS_CHECK, mempcy.
  destruct (Z.leb_spec offset (byte_length b)); [|lia].
  destruct (Z.leb_spec (sizeof T) (byte_length b - offset)); [|lia].
  cbn [andb negb Z.eqb].
  rewrite memcpy_shape; try lia.
  - rewrite firstn_all2 with (l := store_native _ _ _)
      by (rewrite store_native_length; lia).
    reflexivity.
  - rewrite store_native_length. lia.
Qed.

(** X3. A scalar written inside the bytes in use and read back at the same
    offset, with the same width and byte order, is the value written reduced
    to the width. *)
Theorem scalar_write_then_read host T reorder b offset value :
  wf b -> 0 <= offset -> offset <= byte_length b - sizeof T ->
  exists b',
    writeUint host T reorder (Some b) offset value = (0, Some b')
    /\ readUint host T reorder (Some b') offset = value mod 2 ^ bits T.
Proof.
  intros Hwf Hoff Hin. pose proof Hwf as (Hinv & Hcap & Hblock).
  unfold invariant in Hinv. pose proof (sizeof_positive T) as Hsize.
  eexists. split; [apply scalar_write_run; assumption|].
  unfold readUint, CBUFFER_READ_VALUE, CBUFFER_BOUNDS_CHECK.
  cbn [byte_length data].
  destruct (Z.leb_spec offset (byte_length b)); [|lia].
  destruct (Z.leb_spec (sizeof T) (byte_length b - offset)); [|lia].
  cbn [andb negb Z.eqb].
  rewrite bytes_at_window; try lia.
  - rewrite load_store_native. apply swap_for_twice.
  - rewrite length_firstn. lia.
  - apply store_native_length.
Qed.

Lemma scalar_write_then_read_witness :
  wf (buffer_of [1; 2; 3; 4; 5; 6])
  /\ exists b',
      writeUint BigEndian U32 true (Some (buffer_of [1; 2; 3; 4; 5; 6])) 2 0x1CAFEBABE
      = (0, Some b')
      /\ readUint BigEndian U32 true (Some b') 2 = 0xCAFEBABE.
Proof.
  assert (Hwf : wf (buffer_of [1; 2; 3; 4; 5; 6])) by concrete.
  split; [exact Hwf|].
  destruct (scalar_write_then_read BigEndian U32 true (buffer_of [1; 2; 3; 4; 5; 6])
              2 0x1CAFEBABE Hwf ltac:(lia) ltac:(cbn; lia)) as (b' & Hw & Hr).
  exists b'. split; [exact Hw|]. rewrite Hr. reflexivity.
Defined.

(** X4. A scalar write inside the bytes in use changes the [N/8] bytes at
    its offset and nothing else: the bytes before and after them, the length
    and the capacity are as they were, and the [N/8] bytes are the value in
    the byte order asked for. *)
Theorem scalar_write_touches_its_window host T reorder b offset value :
  wf b -> 0 <= offset -> offset <= byte_length b - sizeof T ->
  exists b',
    writeUint host T reorder (Some b) offset value = (0, Some b')
    /\ byte_length b' = byte_length b
    /\ capacity b' = capacity b
    /\ length (data b') = length (data b)
    /\ firstn (Z.to_nat offset) (data b') = firstn (Z.to_nat offset) (data b)
    /\ skipn (Z.to_nat (offset + sizeof T)) (data b')
       = skipn (Z.to_nat (offset + sizeof T)) (data b)
    /\ load_native host (bytes_at (data b') offset (sizeof T))
       = swap_for T reorder value mod 2 ^ bits T.
Proof.
  intros Hwf Hoff Hin. pose proof Hwf as (Hinv & Hcap & Hblock).
  unfold invariant in Hinv. pose proof (sizeof_positive T) as Hsize.
  eexists. split; [apply scalar_write_run; assumption|].
  cbn [byte_length capacity data].
  assert (Hbefore : length (firstn (Z.to_nat offset) (data b)) = Z.to_nat offset).
  { rewrite length_firstn. lia. }
  split; [reflexivity|]. split; [reflexivity|]. split; [|split; [|split]].
  - rewrite !length_app, Hbefore, store_native_length, length_skipn. lia.
  - rewrite firstn_app, Hbefore, Nat.sub_diag, firstn_O, app_nil_r.
    rewrite <- Hbefore at 1. apply firstn_all.
  - rewrite app_assoc, skipn_app.
    assert (Hlen : length (firstn (Z.to_nat offset) (data b)
                           ++ store_native host (Z.to_nat (sizeof T))
                                (swap_for T reorder value))
                   = Z.to_nat (offset + sizeof T)).
    { rewrite length_app, Hbefore, store_native_length. lia. }
    rewrite Hlen, Nat.sub_diag. rewrite <- Hlen at 1. rewrite skipn_all.
    cbn [app skipn]. f_equal. lia.
  - rewrite bytes_at_window; try lia.
    + apply load_store_native.
    + apply store_native_length.
Qed.

Lemma scalar_write_touches_its_window_witness :
  wf (buffer_of [1; 2; 3; 4; 5; 6])
  /\ exists b',
      writeUint LittleEndian U16 false (Some (buffer_of [1; 2; 3; 4; 5; 6])) 3 0xBEEF
      = (0, Some b')
      /\ data b' = bytes_of [1; 2; 3; 0xEF; 0xBE; 6].
Proof.
  assert (Hwf : wf (buffer_of [1; 2; 3; 4; 5; 6])) by concrete.
  split; [exact Hwf|].
  destruct (scalar_write_touches_its_window LittleEndian U16 false
              (buffer_of [1; 2; 3; 4; 5; 6]) 3 0xBEEF Hwf ltac:(lia) ltac:(cbn; lia))
    as (b' & Hw & _).
  exists b'. split; [exact Hw|].
  vm_compute in Hw. injection Hw as <-. reflexivity.
Defined.

(** ** [cbuffer_to_hex] *)

Lemma heap_eta h : mkHeap (outcomes h) (garbage h) (corrupted h) = h.
Proof. destruct h. reflexivity. Qed.

Lemma memcpy_heap_within dst off src n h :
  off + n <= Z.of_nat (length dst) ->
  n <= Z.of_nat (length src) ->
  memcpy_heap dst off src n h = (fst (memcpy dst off src n), h).
Proof.
  intros Hroom Hsrc.
  rewrite memcpy_heap_run, memcpy_in_bounds by assumption.
  cbn [negb]. rewrite orb_false_r, heap_eta. reflexivity.
Qed.

Lemma load_byte_within blk i h :
  (i < length blk)%nat -> load_byte blk i h = (nth i blk (garbage h i), h).
Proof.
  intros Hi. unfold load_byte.
  destruct (Nat.ltb_spec i (length blk)) as [_|]; [|lia].
  cbn [negb]. rewrite orb_false_r, heap_eta. reflexivity.
Qed.

Lemma skipn_cons_nth (d : byte) : forall k (l : list byte),
  (k < length l)%nat -> skipn k l = nth k l d :: skipn (S k) l.
Proof.
  induction k as [|k IH]; intros [|x l] Hk; cbn in Hk; try lia.
  - reflexivity.
  - cbn [skipn nth]. rewrite (IH l) by lia. reflexivity.
Qed.

Lemma hex_pairs_cons v bs :
  hex_pairs (v :: bs)
  = hex_digit (byte.unsigned v / 16) :: hex_digit (byte.unsigned v mod 16)
      :: hex_pairs bs.
Proof. reflexivity. Qed.

Lemma hex_pairs_length bs : length (hex_pairs bs) = (2 * length bs)%nat.
Proof.
  induction bs as [|v bs IH]; [reflexivity|].
  rewrite hex_pairs_cons. cbn [length]. rewrite IH. lia.
Qed.

(** The loop, entered at index [k] with the text of the first [k] bytes in
    place, writes the text of the next [n] bytes and, if it writes at all,
    a NUL after them. *)
Lemma to_hex_loop_run bytes : forall n k (done rest : list byte) h,
  length done = (2 * k)%nat ->
  length rest = (2 * n + 1)%nat ->
  (k + n <= length bytes)%nat ->
  2 * Z.of_nat (k + n) < 2 ^ SIZE_WIDTH ->
  to_hex_loop (seq k n) bytes (done ++ rest) h
  = (done ++ hex_pairs (firstn n (skipn k bytes))
       ++ (match n with O => rest | S _ => [Byte.x00] end), h).
Proof.
  induction n as [|n IH]; intros k done rest h Hdone Hrest Hk Hsize.
  - reflexivity.
  - cbn [seq to_hex_loop]. unfold bind at 1.
    rewrite load_byte_within by lia.
    unfold bind at 1.
    assert (Hoff : size_t_wrap (Z.of_nat k * 2) = Z.of_nat k * 2).
    { apply size_t_wrap_small. unfold is_size_t. lia. }
    rewrite Hoff.
    destruct rest as [|r0 [|r1 [|r2 rest]]]; cbn [length] in Hrest; try lia.
    rewrite memcpy_heap_within;
      [| rewrite length_app; cbn [length]; lia | cbn; lia].
    rewrite memcpy_shape;
      [| lia | lia | rewrite length_app; cbn [length]; lia | cbn; lia].
    replace (Z.to_nat (Z.of_nat k * 2)) with (length done) by lia.
    rewrite firstn_app, firstn_all, Nat.sub_diag, firstn_O, app_nil_r.
    rewrite skipn_app.
    replace (length done + Z.to_nat 3 - length done)%nat with 3%nat by lia.
    rewrite skipn_all2 by lia.
    change (Z.to_nat 3) with 3%nat.
    rewrite (skipn_cons_nth (garbage h k) k bytes) by lia.
    set (value := nth k bytes (garbage h k)).
    unfold sprintf_02x. cbn [firstn skipn app].
    rewrite hex_pairs_cons.
    replace (done ++ hex_digit (byte.unsigned value / 16)
                  :: hex_digit (byte.unsigned value mod 16) :: Byte.x00 :: rest)
      with ((done ++ [hex_digit (byte.unsigned value / 16);
                      hex_digit (byte.unsigned value mod 16)])
              ++ Byte.x00 :: rest)
      by (rewrite <- app_assoc; reflexivity).
    rewrite (IH (S k)); try lia.
    + rewrite <- app_assoc. cbn [app]. do 4 f_equal.
      destruct n; [|reflexivity].
      destruct rest; [reflexivity | cbn [length] in Hrest; lia].
    + rewrite length_app. cbn [length]. lia.
    + cbn [length]. cbn [length] in Hrest. lia.
Qed.

Lemma to_hex_run b h :
  wf b -> 2 * byte_length b + 1 < 2 ^ SIZE_WIDTH ->
  cbuffer_to_hex b h
  = (if fst (next_request h)
     then Some (match Z.to_nat (byte_length b) with
                | O => fresh h 0 1
                | S _ => hex_pairs (used_bytes b) ++ [Byte.x00]
                end)
     else None,
     snd (next_request h)).
Proof.
  intros (Hinv & Hcap & Hblock) Hsize. unfold invariant in Hinv.
  unfold cbuffer_to_hex, bind, ret. rewrite malloc_run.
  destruct (fst (next_request h)); [|reflexivity].
  rewrite size_t_wrap_small by (unfold is_size_t; lia).
  pose proof (to_hex_loop_run (data b) (Z.to_nat (byte_length b)) 0 []
                (fresh h 0 (Z.to_nat (byte_length b * 2 + 1)))
                (snd (next_request h)) eq_refl) as Hloop.
  cbn [app skipn] in Hloop. rewrite Hloop.
  - unfold used_bytes.
    destruct (Z.to_nat (byte_length b)) eqn:Hlen; [|reflexivity].
    cbn [firstn hex_pairs flat_map app].
    replace (Z.to_nat (byte_length b * 2 + 1)) with 1%nat by lia. reflexivity.
  - rewrite fresh_length. lia.
  - lia.
  - lia.
Qed.

Lemma hex_digit_code n :
  0 <= n < 16 ->
  byte.unsigned (hex_digit n) = if n <? 10 then 48 + n else 87 + n.
Proof.
  intros Hn. unfold hex_digit. rewrite byte.unsigned_of_Z. unfold byte.wrap.
  apply Z.mod_small. destruct (Z.ltb_spec n 10); lia.
Qed.

Lemma hex_digit_injective n m :
  0 <= n < 16 -> 0 <= m < 16 -> hex_digit n = hex_digit m -> n = m.
Proof.
  intros Hn Hm Heq. apply (f_equal byte.unsigned) in Heq.
  rewrite !hex_digit_code in Heq by assumption.
  destruct (Z.ltb_spec n 10), (Z.ltb_spec m 10); lia.
Qed.

Lemma hex_pairs_injective : forall bs cs, hex_pairs bs = hex_pairs cs -> bs = cs.
Proof.
  induction bs as [|v bs IH]; intros [|w cs] Heq; try discriminate;
    [reflexivity|].
  rewrite !hex_pairs_cons in Heq. injection Heq as Hhi Hlo Hrest.
  pose proof (byte.unsigned_range v) as Hv.
  pose proof (byte.unsigned_range w) as Hw.
  change (2 ^ 8) with 256 in *.
  assert (Hvq : 0 <= byte.unsigned v / 16 < 16) by (Z.div_mod_to_equations; lia).
  assert (Hwq : 0 <= byte.unsigned w / 16 < 16) by (Z.div_mod_to_equations; lia).
  assert (Hvr : 0 <= byte.unsigned v mod 16 < 16) by (apply Z.mod_pos_bound; lia).
  assert (Hwr : 0 <= byte.unsigned w mod 16 < 16) by (apply Z.mod_pos_bound; lia).
  apply hex_digit_injective in Hhi; [|assumption ..].
  apply hex_digit_injective in Hlo; [|assumption ..].
  f_equal; [|apply IH; exact Hrest].
  apply byte.unsigned_inj.
  rewrite (Z.div_mod (byte.unsigned v) 16), (Z.div_mod (byte.unsigned w) 16) by lia.
  rewrite Hhi, Hlo. reflexivity.
Qed.

Lemma hex_pairs_alphabet bs c :
  In c (hex_pairs bs) ->
  48 <= byte.unsigned c <= 57 \/ 97 <= byte.unsigned c <= 102.
Proof.
  induction bs as [|v bs IH]; [intros []|].
  rewrite hex_pairs_cons. pose proof (byte.unsigned_range v) as Hv.
  change (2 ^ 8) with 256 in Hv.
  assert (Hq : 0 <= byte.unsigned v / 16 < 16) by (Z.div_mod_to_equations; lia).
  assert (Hr : 0 <= byte.unsigned v mod 16 < 16) by (apply Z.mod_pos_bound; lia).
  intros [<- | [<- | Hin]]; [| |apply IH; exact Hin];
    rewrite hex_digit_code by assumption;
    match goal with |- context [?n <? 10] => destruct (Z.ltb_spec n 10) end; lia.
Qed.

(** X5. [cbuffer_to_hex] returns NULL when its allocation fails.  Otherwise,
    for a buffer holding at least one byte, it returns a C string of exactly
    two characters per byte in use, the lower-case hexadecimal digits of each
    byte in order, most significant digit first, followed by the NUL. *)
Theorem to_hex_text b h :
  wf b -> 0 < byte_length b -> 2 * byte_length b + 1 < 2 ^ SIZE_WIDTH ->
  (fst (next_request h) = false -> fst (cbuffer_to_hex b h) = None)
  /\ (fst (next_request h) = true ->
      fst (cbuffer_to_hex b h) = Some (hex_pairs (used_bytes b) ++ [Byte.x00])
      /\ Z.of_nat (length (hex_pairs (used_bytes b))) = 2 * byte_length b
      /\ (forall c, In c (hex_pairs (used_bytes b)) ->
                    48 <= byte.unsigned c <= 57 \/ 97 <= byte.unsigned c <= 102)
      /\ corrupted (snd (cbuffer_to_hex b h)) = corrupted h).
Proof.
  intros Hwf Hpos Hsize. rewrite to_hex_run by assumption.
  split; intros Hok; rewrite Hok; [reflexivity|]. cbn [fst snd].
  destruct Hwf as (Hinv & Hcap & Hblock). unfold invariant in Hinv.
  split; [|split; [|split]].
  - destruct (Z.to_nat (byte_length b)) eqn:Hlen; [lia | reflexivity].
  - rewrite hex_pairs_length. unfold used_bytes. rewrite length_firstn. lia.
  - apply hex_pairs_alphabet.
  - apply next_request_keeps.
Qed.

Lemma to_hex_text_witness :
  wf (buffer_of [0x01; 0xAB; 0xF0])
  /\ fst (cbuffer_to_hex (buffer_of [0x01; 0xAB; 0xF0]) quiet_heap)
     = Some (list_byte_of_string "01abf0" ++ [Byte.x00]).
Proof.
  assert (Hwf : wf (buffer_of [0x01; 0xAB; 0xF0])) by concrete.
  split; [exact Hwf|].
  destruct (to_hex_text (buffer_of [0x01; 0xAB; 0xF0]) quiet_heap Hwf
              ltac:(cbn; lia) ltac:(concrete)) as [_ Hok].
  destruct (Hok eq_refl) as (Htext & _). rewrite Htext. reflexivity.
Defined.

Lemma used_bytes_length b :
  wf b -> length (used_bytes b) = Z.to_nat (byte_length b).
Proof.
  intros (Hinv & _ & Hblock). unfold invariant in Hinv.
  unfold used_bytes. rewrite length_firstn. lia.
Qed.

(** X6. The hexadecimal text determines the content: two buffers for which
    [cbuffer_to_hex] returns the same block hold the same bytes. *)
Theorem to_hex_injective b1 b2 h1 h2 s :
  wf b1 -> wf b2 ->
  2 * byte_length b1 + 1 < 2 ^ SIZE_WIDTH ->
  2 * byte_length b2 + 1 < 2 ^ SIZE_WIDTH ->
  fst (cbuffer_to_hex b1 h1) = Some s ->
  fst (cbuffer_to_hex b2 h2) = Some s ->
  used_bytes b1 = used_bytes b2.
Proof.
  intros Hwf1 Hwf2 Hs1 Hs2.
  rewrite !to_hex_run by assumption.
  destruct (fst (next_request h1)); [|discriminate].
  destruct (fst (next_request h2)); [|discriminate].
  cbn [fst].
  pose proof (used_bytes_length b1 Hwf1) as Hu1.
  pose proof (used_bytes_length b2 Hwf2) as Hu2.
  destruct (Z.to_nat (byte_length b1)) as [|n1];
    destruct (Z.to_nat (byte_length b2)) as [|n2];
    intros Hs Ht; rewrite <- Hs in Ht; clear Hs;
    apply (f_equal (fun o => match o with Some x => x | None => [] end)) in Ht;
    cbn beta iota in Ht.
  - destruct (used_bytes b1), (used_bytes b2); try discriminate. reflexivity.
  - apply (f_equal (@length byte)) in Ht.
    rewrite length_app, hex_pairs_length, fresh_length, Hu2 in Ht.
    cbn [length] in Ht. lia.
  - apply (f_equal (@length byte)) in Ht.
    rewrite length_app, hex_pairs_length, fresh_length, Hu1 in Ht.
    cbn [length] in Ht. lia.
  - apply app_inv_tail in Ht. symmetry. apply hex_pairs_injective. exact Ht.
Qed.

Lemma to_hex_injective_witness :
  wf (buffer_of [7; 8]) /\ wf (mkCBuffer 2 4 (bytes_of [7; 8; 9; 10]))
  /\ used_bytes (buffer_of [7; 8]) = used_bytes (mkCBuffer 2 4 (bytes_of [7; 8; 9; 10])).
Proof.
  assert (Hwf1 : wf (buffer_of [7; 8])) by concrete.
  assert (Hwf2 : wf (mkCBuffer 2 4 (bytes_of [7; 8; 9; 10]))) by concrete.
  split; [exact Hwf1|]. split; [exact Hwf2|].
  apply (to_hex_injective (buffer_of [7; 8]) (mkCBuffer 2 4 (bytes_of [7; 8; 9; 10]))
           quiet_heap quiet_heap (list_byte_of_string "0708" ++ [Byte.x00])
           Hwf1 Hwf2); try concrete; reflexivity.
Defined.

(** X7. For a buffer with no bytes in use [cbuffer_to_hex] allocates one
    byte and stores nothing in it: the block it returns holds whatever
    [malloc] handed out, not a terminated empty string. *)
Theorem to_hex_of_empty_is_unterminated b h :
  byte_length b = 0 ->
  fst (next_request h) = true ->
  fst (cbuffer_to_hex b h) = Some [garbage h 0%nat]
  /\ snd (cbuffer_to_hex b h) = snd (next_request h).
Proof.
  intros Hlen Hok. unfold cbuffer_to_hex, bind, ret.
  rewrite malloc_run, Hok, Hlen. split; reflexivity.
Qed.

Lemma to_hex_of_empty_is_unterminated_witness :
  byte_length empty_buffer = 0
  /\ fst (cbuffer_to_hex empty_buffer (mkHeap [] (fun _ => byte.of_Z 65) false))
     = Some [byte.of_Z 65].
Proof.
  split; [reflexivity|].
  exact (proj1 (to_hex_of_empty_is_unterminated empty_buffer
                  (mkHeap [] (fun _ => byte.of_Z 65) false) eq_refl eq_refl)).
Defined.

(** ** [cbuffer_alloc] *)

Lemma allocations_succeed_two h :
  allocations_succeed 2 h
  = fst (next_request h) && fst (next_request (snd (next_request h))).
Proof.
  unfold allocations_succeed, next_request.
  destruct (outcomes h) as [|a [|a' rest]] eqn:Hout; cbn.
  - rewrite Hout. reflexivity.
  - rewrite andb_true_r. destruct a; reflexivity.
  - destruct a; cbn; [|reflexivity]. destruct a'; reflexivity.
Qed.

(** X8. [cbuffer_alloc] returns NULL exactly when one of its two allocations
    fails (the second is not attempted when the first fails).  Otherwise it
    returns an empty buffer whose capacity is the capacity asked for, or 64
    when 0 was asked for, over a block of that many bytes. *)
Theorem alloc_outcome cap h :
  is_size_t cap ->
  (fst (cbuffer_alloc cap h) = None <-> allocations_succeed 2 h = false)
  /\ (fst (next_request h) = false ->
      snd (cbuffer_alloc cap h) = snd (next_request h))
  /\ (forall b, fst (cbuffer_alloc cap h) = Some b ->
                byte_length b = 0
                /\ (0 < cap -> capacity b = cap)
                /\ (cap = 0 -> capacity b = CBUFFER_DEFAULT_CAPACITY)
                /\ Z.of_nat (length (data b)) = capacity b).
Proof.
  intros Hcap. unfold is_size_t in Hcap.
  rewrite alloc_run, allocations_succeed_two.
  destruct (fst (next_request h)); cbn [andb fst snd].
  - destruct (fst (next_request (snd (next_request h)))); cbn [fst].
    + split; [split; discriminate|]. split; [discriminate|].
      intros b [= <-]. cbn [byte_length capacity data]. rewrite fresh_length.
      unfold CBUFFER_DEFAULT_CAPACITY.
      destruct (Z.ltb_spec 0 cap); repeat split; lia.
    + split; [split; reflexivity|]. split; [discriminate|]. discriminate.
  - split; [split; reflexivity|]. split; [reflexivity|]. discriminate.
Qed.

Lemma alloc_outcome_witness :
  is_size_t 0
  /\ exists b, fst (cbuffer_alloc 0 quiet_heap) = Some b
               /\ byte_length b = 0 /\ capacity b = 64.
Proof.
  assert (Hcap : is_size_t 0) by concrete.
  split; [exact Hcap|].
  destruct (alloc_outcome 0 quiet_heap Hcap) as (_ & _ & Hsome).
  eexists. split; [reflexivity|].
  destruct (Hsome _ eq_refl) as (Hlen & _ & Hdefault & _).
  split; [exact Hlen | apply Hdefault; reflexivity].
Defined.

(** ** Appending *)

Lemma next_request_outcomes h :
  outcomes (snd (next_request h)) = tl (outcomes h).
Proof. unfold next_request. destruct (outcomes h) eqn:Hout; cbn; congruence. Qed.

Lemma never_fails_next h :
  never_fails h ->
  fst (next_request h) = true /\ never_fails (snd (next_request h)).
Proof.
  unfold never_fails. rewrite next_request_outcomes. unfold next_request.
  destruct (outcomes h) as [|ok rest]; cbn; [auto|].
  intros H. apply andb_true_iff in H. destruct H as [-> H]. auto.
Qed.

Lemma never_fails_allocations n h :
  never_fails h -> allocations_succeed n h = true.
Proof.
  unfold never_fails, allocations_succeed. revert n.
  induction (outcomes h) as [|ok rest IH]; intros n Hall.
  - destruct n; reflexivity.
  - destruct n; [reflexivity|]. cbn in *.
    apply andb_true_iff in Hall. destruct Hall as [-> Hall]. apply IH. exact Hall.
Qed.

(** A write of bytes the source holds, whose sum with the length is a
    [size_t], when the reallocation it may need succeeds. *)
Lemma write_succeeds fuel b src src_len h :
  wf b -> (65 <= fuel)%nat ->
  0 < src_len -> src_len <= Z.of_nat (length src) ->
  byte_length b + src_len < 2 ^ SIZE_WIDTH ->
  (capacity b < byte_length b + src_len -> fst (next_request h) = true) ->
  exists b' h',
    cbuffer_write fuel (Some b) (Some src) src_len h
    = Some ((to_int src_len, Some b'), h')
    /\ wf b'
    /\ byte_length b' = byte_length b + src_len
    /\ used_bytes b' = used_bytes b ++ firstn (Z.to_nat src_len) src
    /\ capacity b <= capacity b'
    /\ corrupted h' = corrupted h
    /\ (outcomes h' = outcomes h \/ outcomes h' = tl (outcomes h)).
Proof.
  intros Hwf Hfuel Hpos Hsrc Hsum Halloc.
  pose proof Hwf as (Hinv & Hcap & Hblock). unfold invariant in Hinv.
  assert (Hsz : is_size_t src_len) by (unfold is_size_t; lia).
  assert (Htr : size_t_wrap (byte_length b + src_len) = byte_length b + src_len).
  { apply size_t_wrap_small. unfold is_size_t. lia. }
  destruct (write_cases fuel b src src_len h Hwf Hsz ltac:(lia) Hfuel)
    as [(h' & _ & Hgrow & Hfail & _)
       | (b1 & h1 & Hens & _ & Hsame & Hwf1 & Hreach & Hlen1 & Hprefix & Hheap & Hrun)];
    rewrite Htr in *.
  - rewrite (Halloc Hgrow) in Hfail. discriminate.
  - eexists _, _. split; [exact Hrun|].
    destruct Hwf1 as (Hinv1 & Hcap1 & Hblock1). unfold invariant in Hinv1.
    split; [|split; [|split; [|split; [|split]]]].
    + unfold wf, invariant. cbn [byte_length capacity data].
      rewrite memcpy_length by lia. lia.
    + reflexivity.
    + unfold used_bytes at 1. cbn [byte_length data].
      rewrite memcpy_appends by lia.
      f_equal. apply used_bytes_grown; assumption.
    + cbn [capacity].
      destruct (Z.le_gt_cases (byte_length b + src_len) (capacity b)) as [Hfit|Hgrow].
      * destruct (Hsame Hfit) as [-> _]. lia.
      * lia.
    + cbn [corrupted]. rewrite memcpy_in_bounds by lia.
      rewrite Hheap. apply orb_false_r.
    + cbn [outcomes].
      destruct (Z.le_gt_cases (byte_length b + src_len) (capacity b)) as [Hfit|Hgrow].
      * destruct (Hsame Hfit) as [_ ->]. left. reflexivity.
      * right.
        destruct (ensure_capacity_grows fuel b (byte_length b + src_len) h Hwf
                    ltac:(unfold is_size_t; lia) Hfuel Hgrow)
          as (target & _ & _ & _ & Hens').
        rewrite Hens in Hens'. injection Hens' as _ ->.
        apply next_request_outcomes.
Qed.

Lemma never_fails_tail h h' :
  never_fails h ->
  outcomes h' = outcomes h \/ outcomes h' = tl (outcomes h) ->
  never_fails h'.
Proof.
  unfold never_fails. intros Hall [-> | ->]; [exact Hall|].
  destruct (outcomes h) as [|ok rest]; [reflexivity|].
  cbn in *. apply andb_true_iff in Hall. apply Hall.
Qed.

(** X9. Appending a list of sources one after the other, on a heap whose
    allocations succeed and with a total length that is a [size_t], leaves a
    buffer holding the old bytes followed by all the sources in order; its
    length is the old length plus the sum of their lengths, it satisfies the
    invariant, and no copy has left its block. *)
Theorem write_all_concatenates fuel : forall sources b h,
  wf b -> (65 <= fuel)%nat -> never_fails h ->
  byte_length b + Z.of_nat (length (concat sources)) < 2 ^ SIZE_WIDTH ->
  exists b' h',
    write_all fuel (Some b) sources h = Some (Some b', h')
    /\ wf b'
    /\ used_bytes b' = used_bytes b ++ concat sources
    /\ byte_length b' = byte_length b + Z.of_nat (length (concat sources))
    /\ capacity b <= capacity b'
    /\ corrupted h' = corrupted h.
Proof.
  induction sources as [|src rest IH]; intros b h Hwf Hfuel Hheap Hsum.
  - exists b, h. cbn [write_all concat length]. rewrite app_nil_r.
    split; [reflexivity|]. split; [exact Hwf|]. split; [reflexivity|].
    split; [lia|]. split; [lia | reflexivity].
  - cbn [concat] in *. rewrite length_app in Hsum. cbn [write_all].
    destruct (Nat.eq_dec (length src) 0) as [Hempty | Hsome].
    + destruct src; [|discriminate]. cbn [length app] in *.
      unfold cbuffer_write at 1. cbn [Z.of_nat Z.eqb].
      apply IH; assumption.
    + destruct (write_succeeds fuel b src (Z.of_nat (length src)) h Hwf Hfuel
                  ltac:(lia) ltac:(lia) ltac:(lia)
                  ltac:(intros _; apply never_fails_next; exact Hheap))
        as (b1 & h1 & Hrun & Hwf1 & Hlen1 & Hbytes1 & Hcap1 & Hcor1 & Hout1).
      rewrite Hrun.
      destruct (IH b1 h1 Hwf1 Hfuel (never_fails_tail h h1 Hheap Hout1) ltac:(lia))
        as (b' & h' & Hall & Hwf' & Hbytes' & Hlen' & Hcap' & Hcor').
      exists b', h'. split; [exact Hall|]. split; [exact Hwf'|].
      rewrite Nat2Z.id, firstn_all in Hbytes1.
      split; [rewrite Hbytes', Hbytes1, app_assoc; reflexivity|].
      split; [rewrite length_app; lia|]. split; [lia | congruence].
Qed.

Lemma write_all_concatenates_witness :
  wf empty_buffer /\ never_fails quiet_heap
  /\ exists b' h',
      write_all 65 (Some empty_buffer)
        [bytes_of [1; 2]; []; bytes_of [3]; bytes_of [4; 5; 6]] quiet_heap
      = Some (Some b', h')
      /\ used_bytes b' = bytes_of [1; 2; 3; 4; 5; 6]
      /\ byte_length b' = 6.
Proof.
  assert (Hwf : wf empty_buffer) by concrete.
  split; [exact Hwf|]. split; [reflexivity|].
  destruct (write_all_concatenates 65
              [bytes_of [1; 2]; []; bytes_of [3]; bytes_of [4; 5; 6]]
              empty_buffer quiet_heap Hwf (le_n 65) eq_refl ltac:(concrete))
    as (b' & h' & Hrun & _ & Hbytes & Hlen & _).
  exists b', h'. split; [exact Hrun|]. split; [exact Hbytes | exact Hlen].
Defined.

(** X10. The result of a write that has appended all its bytes can be -1,
    the value a failed write returns: when the low 32 bits of [src_len] are
    all ones, the write grows the buffer, copies every byte, advances the
    length and returns -1. *)
Theorem write_success_can_return_minus_one fuel b src src_len h :
  wf b -> (65 <= fuel)%nat ->
  0 < src_len -> src_len mod 2 ^ 32 = 2 ^ 32 - 1 ->
  src_len <= Z.of_nat (length src) ->
  byte_length b + src_len < 2 ^ SIZE_WIDTH ->
  fst (next_request h) = true ->
  exists b' h',
    cbuffer_write fuel (Some b) (Some src) src_len h = Some ((-1, Some b'), h')
    /\ byte_length b' = byte_length b + src_len
    /\ used_bytes b' = used_bytes b ++ firstn (Z.to_nat src_len) src
    /\ b' <> b.
Proof.
  intros Hwf Hfuel Hpos Hlow Hsrc Hsum Hok.
  destruct (write_succeeds fuel b src src_len h Hwf Hfuel Hpos Hsrc Hsum
              ltac:(intros _; exact Hok))
    as (b' & h' & Hrun & _ & Hlen & Hbytes & _).
  assert (Hret : to_int src_len = -1).
  { unfold to_int.
    rewrite <- Z.add_mod_idemp_l, Hlow by lia. reflexivity. }
  rewrite Hret in Hrun. exists b', h'. split; [exact Hrun|].
  split; [exact Hlen|]. split; [exact Hbytes|].
  intros ->. lia.
Qed.

Lemma write_success_can_return_minus_one_witness :
  wf empty_buffer
  /\ (2 ^ 32 - 1) mod 2 ^ 32 = 2 ^ 32 - 1
  /\ exists b' h',
      cbuffer_write 65 (Some empty_buffer)
        (Some (repeat Byte.x00 (Z.to_nat (2 ^ 32 - 1)))) (2 ^ 32 - 1) quiet_heap
      = Some ((-1, Some b'), h')
      /\ byte_length b' = byte_length empty_buffer + (2 ^ 32 - 1).
Proof.
  assert (Hwf : wf empty_buffer) by concrete.
  assert (Hlow : (2 ^ 32 - 1) mod 2 ^ 32 = 2 ^ 32 - 1) by reflexivity.
  split; [exact Hwf|]. split; [exact Hlow|].
  destruct (write_success_can_return_minus_one 65 empty_buffer
              (repeat Byte.x00 (Z.to_nat (2 ^ 32 - 1))) (2 ^ 32 - 1) quiet_heap
              Hwf (le_n 65) ltac:(lia) Hlow
              ltac:(rewrite repeat_length; lia)
              ltac:(unfold SIZE_WIDTH; change (byte_length empty_buffer) with 0; lia)
              eq_refl)
    as (b' & h' & Hrun & Hlen & _).
  exists b', h'. split; [exact Hrun | exact Hlen].
Defined.

(** ** Growth *)

Lemma doublings_exact cap : forall k,
  0 <= cap ->
  (forall j, (j < k)%nat -> doublings cap j < 2 ^ 63) ->
  doublings cap k = cap * 2 ^ Z.of_nat k.
Proof.
  induction k as [|k IH]; intros Hcap Hbelow.
  - cbn. lia.
  - rewrite doublings_succ, IH by (try assumption; intros j Hj; apply Hbelow; lia).
    pose proof (Hbelow k ltac:(lia)) as Hk.
    rewrite IH in Hk by (try assumption; intros j Hj; apply Hbelow; lia).
    assert (Hnonneg : 0 <= cap * 2 ^ Z.of_nat k) by (apply Z.mul_nonneg_nonneg; lia).
    rewrite size_t_wrap_small by (unfold is_size_t, SIZE_WIDTH; lia).
    rewrite Nat2Z.inj_succ, Z.pow_succ_r by lia. ring.
Qed.

Lemma growth_target_below_double cap size target :
  is_size_t cap -> cap < size ->
  growth_target cap size target -> size <= target < 2 * size.
Proof.
  intros Hcap Hlt (k & Hk & Hbelow & [(_ & ->) | (_ & Hreach & ->)]);
    [unfold is_size_t in Hcap; lia|].
  split; [exact Hreach|].
  destruct k as [|k]; [lia|].
  rewrite doublings_succ.
  assert (Hprev : 0 <= doublings cap k < size).
  { destruct k as [|k].
    - cbn. unfold is_size_t in Hcap. lia.
    - pose proof (doublings_range cap (S k) Hcap) as Hr. unfold is_size_t in Hr.
      destruct (Hbelow (S k) ltac:(lia)). lia. }
  unfold size_t_wrap, SIZE_WIDTH.
  pose proof (Z.mod_le (doublings cap k * 2) (2 ^ 64) ltac:(lia) ltac:(lia)). lia.
Qed.

(** X11. When [cbuffer_ensure_capacity] grows a buffer, the new capacity is
    at least the size asked for and less than twice that size; for a size up
    to 2^63 no doubling wraps and the new capacity is the old one times the
    smallest power of two that reaches the size. *)
Theorem ensure_capacity_growth_bounds fuel b size h :
  wf b -> is_size_t size -> (65 <= fuel)%nat ->
  capacity b < size -> fst (next_request h) = true ->
  exists b' h',
    cbuffer_ensure_capacity fuel (Some b) size h = Some ((0, Some b'), h')
    /\ size <= capacity b' < 2 * size
    /\ (size <= 2 ^ 63 ->
        exists k : nat,
          (1 <= k)%nat
          /\ capacity b' = capacity b * 2 ^ Z.of_nat k
          /\ capacity b * 2 ^ Z.of_nat (k - 1) < size).
Proof.
  intros Hwf Hsize Hfuel Hlt Hok.
  destruct (wf_capacity b Hwf) as [Hpos Hcap].
  destruct (ensure_capacity_grows fuel b size h Hwf Hsize Hfuel Hlt)
    as (target & Htarget & _ & _ & Hrun).
  rewrite Hok in Hrun. eexists _, _. split; [exact Hrun|]. cbn [capacity].
  split; [apply (growth_target_below_double (capacity b)); assumption|].
  intros Hhalf. destruct Htarget as (k & Hk & Hbelow & Hend).
  assert (Hexact : forall j, (j <= k)%nat ->
                             doublings (capacity b) j = capacity b * 2 ^ Z.of_nat j).
  { intros j Hj. apply doublings_exact; [lia|].
    intros i Hi. destruct i as [|i]; [cbn; lia|].
    destruct (Hbelow (S i) ltac:(lia)). lia. }
  exists k. split; [lia|].
  assert (Hgrow : capacity b <= capacity b * 2 ^ Z.of_nat k).
  { pose proof (Z.pow_pos_nonneg 2 (Z.of_nat k) ltac:(lia) ltac:(lia)). nia. }
  rewrite (Hexact k (le_n k)) in Hend.
  destruct Hend as [(Hwrap & _) | (_ & _ & ->)]; [lia|].
  split; [reflexivity|].
  rewrite <- (Hexact (k - 1)%nat) by lia.
  destruct (Nat.eq_dec k 1) as [-> | Hk1].
  - cbn. exact Hlt.
  - destruct (Hbelow (k - 1)%nat ltac:(lia)). assumption.
Qed.

Lemma ensure_capacity_growth_bounds_witness :
  wf (buffer_of [1; 2; 3]) /\ is_size_t 100
  /\ exists b' h',
      cbuffer_ensure_capacity 65 (Some (buffer_of [1; 2; 3])) 100 quiet_heap
      = Some ((0, Some b'), h')
      /\ 100 <= capacity b' < 200.
Proof.
  assert (Hwf : wf (buffer_of [1; 2; 3])) by concrete.
  assert (Hsize : is_size_t 100) by concrete.
  split; [exact Hwf|]. split; [exact Hsize|].
  destruct (ensure_capacity_growth_bounds 65 (buffer_of [1; 2; 3]) 100 quiet_heap
              Hwf Hsize (le_n 65) ltac:(cbn; lia) eq_refl)
    as (b' & h' & Hrun & Hbound & _).
  exists b', h'. split; [exact Hrun | exact Hbound].
Defined.

(** X12. [cbuffer_ensure_capacity] never shrinks a buffer and never touches
    its length or its bytes in use, whether it succeeds or fails; once it has
    returned 0 for a size, a further call for that size or a smaller one
    returns 0, allocates nothing and changes nothing. *)
Theorem ensure_capacity_is_stable fuel b size h :
  wf b -> is_size_t size -> (65 <= fuel)%nat ->
  exists rc b' h',
    cbuffer_ensure_capacity fuel (Some b) size h = Some ((rc, Some b'), h')
    /\ capacity b <= capacity b'
    /\ byte_length b' = byte_length b
    /\ used_bytes b' = used_bytes b
    /\ (rc = 0 ->
        forall fuel' size' h'',
          size' <= size ->
          cbuffer_ensure_capacity fuel' (Some b') size' h''
          = Some ((0, Some b'), h'')).
Proof.
  intros Hwf Hsize Hfuel.
  destruct (Z.le_gt_cases size (capacity b)) as [Hfit | Hgrow].
  - exists 0, b, h. rewrite ensure_capacity_enough by exact Hfit.
    split; [reflexivity|]. split; [lia|]. split; [reflexivity|].
    split; [reflexivity|].
    intros _ fuel' size' h'' Hle. apply ensure_capacity_enough. lia.
  - destruct (ensure_capacity_grows fuel b size h Hwf Hsize Hfuel Hgrow)
      as (target & _ & Hreach & Hrange & Hrun).
    rewrite Hrun. destruct (fst (next_request h)).
    + eexists _, _, _. split; [reflexivity|]. cbn [capacity byte_length].
      split; [lia|]. split; [reflexivity|]. split.
      * destruct Hwf as (Hinv & Hcap & Hblock). unfold invariant in Hinv.
        unfold used_bytes at 1. cbn [byte_length data].
        rewrite firstn_app, firstn_firstn.
        replace (Z.to_nat (byte_length b) - _)%nat with 0%nat
          by (rewrite length_firstn; lia).
        rewrite firstn_O, app_nil_r. unfold used_bytes. f_equal. lia.
      * intros _ fuel' size' h'' Hle. apply ensure_capacity_enough.
        cbn [capacity]. lia.
    + eexists _, _, _. split; [reflexivity|].
      split; [lia|]. split; [reflexivity|]. split; [reflexivity|].
      intros Hrc. discriminate Hrc.
Qed.

Lemma ensure_capacity_is_stable_witness :
  wf (buffer_of [1; 2; 3]) /\ is_size_t 10
  /\ exists rc b' h',
      cbuffer_ensure_capacity 65 (Some (buffer_of [1; 2; 3])) 10 quiet_heap
      = Some ((rc, Some b'), h')
      /\ used_bytes b' = bytes_of [1; 2; 3].
Proof.
  assert (Hwf : wf (buffer_of [1; 2; 3])) by concrete.
  assert (Hsize : is_size_t 10) by concrete.
  split; [exact Hwf|]. split; [exact Hsize|].
  destruct (ensure_capacity_is_stable 65 (buffer_of [1; 2; 3]) 10 quiet_heap
              Hwf Hsize (le_n 65)) as (rc & b' & h' & Hrun & _ & _ & Hbytes & _).
  exists rc, b', h'. split; [exact Hrun | exact Hbytes].
Defined.

(** ** Derived buffers *)

Lemma alloc_default_capacity h :
  cbuffer_alloc 0 h = cbuffer_alloc CBUFFER_DEFAULT_CAPACITY h.
Proof. rewrite !alloc_run. reflexivity. Qed.

(** X13. A subarray from offset 0 whose end is 0, the length, or beyond the
    length is exactly what [cbuffer_clone] returns, buffer and heap alike,
    for an empty buffer too. *)
Theorem subarray_of_everything_is_clone b end_ h :
  wf b -> end_ = 0 \/ byte_length b <= end_ ->
  cbuffer_subarray (Some b) 0 end_ h = cbuffer_clone (Some b) h.
Proof.
  intros (Hinv & _) Hend. unfold invariant in Hinv.
  unfold cbuffer_subarray, cbuffer_clone.
  assert (Hstop : (if (end_ =? 0) || (byte_length b <? end_)
                   then byte_length b else end_) = byte_length b).
  { destruct (Z.eqb_spec end_ 0), (Z.ltb_spec (byte_length b) end_); cbn; lia. }
  rewrite Hstop.
  destruct (Z.eq_dec (byte_length b) 0) as [Hz | Hnz].
  - rewrite Hz. cbn [Z.leb Z.compare orb]. unfold cbuffer_from. cbn [Z.eqb].
    apply alloc_default_capacity.
  - destruct (Z.leb_spec (byte_length b) 0); [lia|]. cbn [orb Z.to_nat skipn].
    rewrite Z.sub_0_r. reflexivity.
Qed.

Lemma subarray_of_everything_is_clone_witness :
  wf (buffer_of [4; 5; 6])
  /\ cbuffer_subarray (Some (buffer_of [4; 5; 6])) 0 99 quiet_heap
     = cbuffer_clone (Some (buffer_of [4; 5; 6])) quiet_heap.
Proof.
  assert (Hwf : wf (buffer_of [4; 5; 6])) by concrete.
  split; [exact Hwf|].
  apply (subarray_of_everything_is_clone (buffer_of [4; 5; 6]) 99 quiet_heap Hwf).
  right. cbn. lia.
Defined.

Lemma from_block src src_len h c :
  0 < src_len -> src_len <= Z.of_nat (length src) ->
  fst (cbuffer_from (Some src) src_len h) = Some c ->
  data c = firstn (Z.to_nat src_len) src
  /\ byte_length c = src_len /\ capacity c = src_len.
Proof.
  intros Hpos Hsrc. rewrite from_run by lia.
  destruct (fst (next_request h)); [|discriminate].
  destruct (fst (next_request (snd (next_request h)))); [|discriminate].
  cbn [fst]. intros Hc.
  apply (f_equal (fun o => match o with Some x => x | None => c end)) in Hc.
  cbn beta iota in Hc. subst c. cbn [data byte_length capacity].
  split; [|split; reflexivity].
  rewrite memcpy_shape; try lia; [|rewrite fresh_length; lia].
  cbn [Z.to_nat firstn app Nat.add].
  rewrite skipn_all2 by (rewrite fresh_length; lia).
  apply app_nil_r.
Qed.

(** X14. A buffer built by [cbuffer_from] from at least one byte, and so the
    clone of a non-empty buffer, owns a block that is exactly the bytes
    copied: nothing of the block is left uninitialised, and nothing of the
    original beyond its length reaches the clone. *)
Theorem clone_block_is_the_content :
  (forall src src_len h c,
      0 < src_len -> src_len <= Z.of_nat (length src) ->
      fst (cbuffer_from (Some src) src_len h) = Some c ->
      data c = firstn (Z.to_nat src_len) src
      /\ byte_length c = src_len /\ capacity c = src_len)
  /\ (forall b h c,
         wf b -> 0 < byte_length b ->
         fst (cbuffer_clone (Some b) h) = Some c ->
         data c = used_bytes b)
  /\ (forall b1 b2 h,
         wf b1 -> wf b2 ->
         byte_length b1 = byte_length b2 -> used_bytes b1 = used_bytes b2 ->
         0 < byte_length b1 ->
         fst (cbuffer_clone (Some b1) h) = fst (cbuffer_clone (Some b2) h)).
Proof.
  assert (Hclone : forall b h c,
             wf b -> 0 < byte_length b ->
             fst (cbuffer_clone (Some b) h) = Some c -> data c = used_bytes b).
  { intros b h c (Hinv & _ & Hblock) Hpos Hrun. unfold invariant in Hinv.
    apply (from_block (data b) (byte_length b) h c); [lia | lia | exact Hrun]. }
  split; [exact from_block|]. split; [exact Hclone|].
  intros b1 b2 h Hwf1 Hwf2 Hlen Hbytes Hpos.
  destruct (fst (cbuffer_clone (Some b1) h)) as [c1|] eqn:H1;
    destruct (fst (cbuffer_clone (Some b2) h)) as [c2|] eqn:H2.
  - pose proof (Hclone b1 h c1 Hwf1 Hpos H1) as Hd1.
    pose proof (Hclone b2 h c2 Hwf2 ltac:(lia) H2) as Hd2.
    destruct Hwf1 as (Hinv1 & _ & Hblock1). destruct Hwf2 as (Hinv2 & _ & Hblock2).
    unfold invariant in *.
    destruct (from_block (data b1) (byte_length b1) h c1 ltac:(lia) ltac:(lia) H1)
      as (_ & Hl1 & Hc1).
    destruct (from_block (data b2) (byte_length b2) h c2 ltac:(lia) ltac:(lia) H2)
      as (_ & Hl2 & Hc2).
    destruct c1, c2. cbn in *. congruence.
  - exfalso. unfold cbuffer_clone in H1, H2.
    rewrite from_run in H1, H2 by lia.
    destruct (fst (next_request h)); [|discriminate].
    destruct (fst (next_request (snd (next_request h)))); discriminate.
  - exfalso. unfold cbuffer_clone in H1, H2.
    rewrite from_run in H1, H2 by lia.
    destruct (fst (next_request h)); [|discriminate].
    destruct (fst (next_request (snd (next_request h)))); discriminate.
  - reflexivity.
Qed.

Lemma clone_block_is_the_content_witness :
  wf (mkCBuffer 2 4 (bytes_of [7; 8; 9; 10]))
  /\ exists c,
      fst (cbuffer_clone (Some (mkCBuffer 2 4 (bytes_of [7; 8; 9; 10]))) quiet_heap)
      = Some c
      /\ data c = bytes_of [7; 8].
Proof.
  assert (Hwf : wf (mkCBuffer 2 4 (bytes_of [7; 8; 9; 10]))) by concrete.
  split; [exact Hwf|].
  eexists. split; [reflexivity|].
  apply (proj1 (proj2 clone_block_is_the_content)
           (mkCBuffer 2 4 (bytes_of [7; 8; 9; 10])) quiet_heap _ Hwf
           ltac:(cbn; lia) eq_refl).
Defined.

Lemma alloc_keeps_corrupted cap h :
  corrupted (snd (cbuffer_alloc cap h)) = corrupted h.
Proof.
  rewrite alloc_run.
  destruct (fst (next_request h)); cbn [snd].
  - destruct (next_request_keeps (snd (next_request h))) as [_ ->].
    apply next_request_keeps.
  - apply next_request_keeps.
Qed.

Lemma from_keeps_corrupted src src_len h :
  0 <= src_len -> src_len <= Z.of_nat (length src) ->
  corrupted (snd (cbuffer_from (Some src) src_len h)) = corrupted h.
Proof.
  intros Hpos Hsrc. destruct (Z.eq_dec src_len 0) as [-> | Hnz].
  - unfold cbuffer_from. cbn [Z.eqb]. apply alloc_keeps_corrupted.
  - rewrite from_run by exact Hnz.
    destruct (fst (next_request h)); [|apply next_request_keeps].
    destruct (fst (next_request (snd (next_request h)))); cbn [snd corrupted].
    + rewrite memcpy_in_bounds by (rewrite ?fresh_length; lia).
      rewrite orb_false_r.
      destruct (next_request_keeps (snd (next_request h))) as [_ ->].
      apply next_request_keeps.
    + destruct (next_request_keeps (snd (next_request h))) as [_ ->].
      apply next_request_keeps.
Qed.

(** X15. On a buffer that satisfies the invariant, [cbuffer_clone],
    [cbuffer_subarray] with any bounds, and [cbuffer_to_hex] read and write
    only inside the blocks they are given or allocate, whether their
    allocations succeed or fail. *)
Theorem derived_buffers_stay_in_bounds b h :
  wf b ->
  corrupted (snd (cbuffer_clone (Some b) h)) = corrupted h
  /\ (forall start end_,
         is_size_t start -> is_size_t end_ ->
         corrupted (snd (cbuffer_subarray (Some b) start end_ h)) = corrupted h)
  /\ (2 * byte_length b + 1 < 2 ^ SIZE_WIDTH ->
      corrupted (snd (cbuffer_to_hex b h)) = corrupted h).
Proof.
  intros Hwf. pose proof Hwf as (Hinv & Hcap & Hblock). unfold invariant in Hinv.
  split; [|split].
  - unfold cbuffer_clone. apply from_keeps_corrupted; lia.
  - intros start end_ Hstart Hend. unfold is_size_t in *.
    unfold cbuffer_subarray.
    set (stop := if (end_ =? 0) || (byte_length b <? end_) then byte_length b else end_).
    assert (Hstop : 0 <= stop <= byte_length b).
    { subst stop. destruct (Z.eqb_spec end_ 0), (Z.ltb_spec (byte_length b) end_);
        cbn; lia. }
    clearbody stop.
    destruct ((byte_length b <=? start) || (stop <=? start)) eqn:Hempty.
    + apply alloc_keeps_corrupted.
    + apply orb_false_iff in Hempty. rewrite !Z.leb_gt in Hempty.
      apply from_keeps_corrupted; [lia | rewrite length_skipn; lia].
  - intros Hsize. rewrite to_hex_run by assumption. cbn [snd].
    apply next_request_keeps.
Qed.

Lemma derived_buffers_stay_in_bounds_witness :
  wf (buffer_of [1; 2; 3])
  /\ corrupted (snd (cbuffer_subarray (Some (buffer_of [1; 2; 3])) 1 (2 ^ 64 - 1)
                       quiet_heap)) = false.
Proof.
  assert (Hwf : wf (buffer_of [1; 2; 3])) by concrete.
  split; [exact Hwf|].
  apply (proj1 (proj2 (derived_buffers_stay_in_bounds (buffer_of [1; 2; 3])
                         quiet_heap Hwf)) 1 (2 ^ 64 - 1)); concrete.
Defined.

(** X16. Building a buffer with [cbuffer_from] and building it with
    [cbuffer_alloc] of any capacity followed by [cbuffer_write] of the same
    bytes give buffers that [cbuffer_equals] holds equal. *)
Theorem from_equals_alloc_then_write fuel src src_len cap h1 h2 :
  (65 <= fuel)%nat -> is_size_t cap ->
  0 < src_len -> src_len <= Z.of_nat (length src) ->
  src_len < 2 ^ SIZE_WIDTH ->
  never_fails h1 -> never_fails h2 ->
  exists c a h2' a' h2'',
    fst (cbuffer_from (Some src) src_len h1) = Some c
    /\ cbuffer_alloc cap h2 = (Some a, h2')
    /\ cbuffer_write fuel (Some a) (Some src) src_len h2'
       = Some ((to_int src_len, Some a'), h2'')
    /\ cbuffer_equals c a' = true.
Proof.
  intros Hfuel Hcap Hpos Hsrc Hsz Hh1 Hh2.
  destruct (from_copies src src_len h1 (never_fails_allocations 2 h1 Hh1) Hpos Hsrc)
    as (c & h1' & Hfrom & Hlenc & _ & Hbytesc & _).
  destruct (alloc_succeeds cap h2 (never_fails_allocations 2 h2 Hh2))
    as (a & h2' & Halloc).
  destruct (alloc_wf cap h2 a Hcap ltac:(rewrite Halloc; reflexivity))
    as (Hwfa & Hlena & _).
  assert (Hh2' : fst (next_request h2') = true).
  { apply never_fails_next. unfold never_fails.
    assert (Hout : outcomes h2' = tl (tl (outcomes h2))).
    { rewrite alloc_run in Halloc.
      destruct (never_fails_next h2 Hh2) as [Hn1 Hn1'].
      destruct (never_fails_next _ Hn1') as [Hn2 _].
      rewrite Hn1, Hn2 in Halloc. injection Halloc as _ <-.
      rewrite !next_request_outcomes. reflexivity. }
    rewrite Hout. unfold never_fails in Hh2.
    destruct (outcomes h2) as [|o1 [|o2 rest]]; cbn in *; try reflexivity.
    apply andb_true_iff in Hh2. destruct Hh2 as [_ Hh2].
    apply andb_true_iff in Hh2. apply Hh2. }
  destruct (write_succeeds fuel a src src_len h2' Hwfa Hfuel Hpos Hsrc
              ltac:(lia) ltac:(intros _; exact Hh2'))
    as (a' & h2'' & Hwrite & _ & Hlena' & Hbytesa' & _).
  exists c, a, h2', a', h2''. rewrite Hfrom.
  split; [reflexivity|]. split; [exact Halloc|]. split; [exact Hwrite|].
  apply cbuffer_equals_spec. split; [lia|].
  rewrite Hbytesc, Hbytesa'. unfold used_bytes. rewrite Hlena. reflexivity.
Qed.

Lemma from_equals_alloc_then_write_witness :
  never_fails quiet_heap
  /\ exists c a h2' a' h2'',
      fst (cbuffer_from (Some (bytes_of [1; 2; 3])) 3 quiet_heap) = Some c
      /\ cbuffer_alloc 2 quiet_heap = (Some a, h2')
      /\ cbuffer_write 65 (Some a) (Some (bytes_of [1; 2; 3])) 3 h2'
         = Some ((to_int 3, Some a'), h2'')
      /\ cbuffer_equals c a' = true.
Proof.
  split; [reflexivity|].
  apply (from_equals_alloc_then_write 65 (bytes_of [1; 2; 3]) 3 2 quiet_heap quiet_heap);
    try concrete; reflexivity.
Defined.

(** X17. A buffer whose capacity is 0 can never be grown: for any positive
    size the doubling loop of [cbuffer_ensure_capacity] doubles zero for
    ever, so the call returns within no number of iterations, and neither
    does a [cbuffer_write] of at least one byte to an empty buffer of
    capacity 0. *)
Theorem zero_capacity_never_grows fuel b size h :
  capacity b = 0 -> 0 < size ->
  cbuffer_ensure_capacity fuel (Some b) size h = None
  /\ (forall src src_len,
         byte_length b = 0 -> 0 < src_len < 2 ^ SIZE_WIDTH ->
         cbuffer_write fuel (Some b) (Some src) src_len h = None).
Proof.
  intros Hcap Hsize.
  assert (Hens : forall n, 0 < n ->
                           cbuffer_ensure_capacity fuel (Some b) n h = None).
  { intros n Hn. unfold cbuffer_ensure_capacity. rewrite Hcap.
    destruct (Z.leb_spec n 0); [lia|].
    rewrite grow_loop_zero_capacity by exact Hn. reflexivity. }
  split; [apply Hens; exact Hsize|].
  intros src src_len Hlen Hsrc. unfold cbuffer_write.
  destruct (Z.eqb_spec src_len 0); [lia|].
  rewrite Hlen, Z.add_0_l, size_t_wrap_small by (unfold is_size_t; lia).
  rewrite Hens by lia. reflexivity.
Qed.

Lemma zero_capacity_never_grows_witness :
  capacity (mkCBuffer 0 0 []) = 0
  /\ cbuffer_ensure_capacity 1000 (Some (mkCBuffer 0 0 [])) 1 quiet_heap = None.
Proof.
  split; [reflexivity|].
  exact (proj1 (zero_capacity_never_grows 1000 (mkCBuffer 0 0 []) 1 quiet_heap
                  eq_refl ltac:(lia))).
Defined.

(** ** The AEAD descriptors *)

Lemma aead_aes_returns mode d :
  aead_aes mode = Some d -> d = AEAD_AES_GCM_MODE \/ d = AEAD_AES_CCM_MODE.
Proof.
  destruct mode as [mode|]; [|discriminate].
  rewrite aead_aes_spellings.
  repeat match goal with
         | |- context [string_dec ?a ?b] => destruct (string_dec a b)
         end; intros [= <-]; auto.
Qed.

(** X18. Every descriptor the module hands out, from [aead_aes] for any mode
    string or from [aead_chacha20], has a key-size count equal to the number
    of key sizes it lists, at least one key size, only key sizes of 16, 24 or
    32 bytes, a 16-byte tag and an IV of 12 or 13 bytes; two such
    descriptors with the same algorithm id are the same descriptor; and
    [aead_aes] of a NULL mode is NULL. *)
Theorem aead_descriptors_are_consistent :
  (forall d,
      d = aead_chacha20 \/ (exists mode, aead_aes mode = Some d) ->
      allowed_key_sizes_count d = Z.of_nat (length (allowed_key_sizes d))
      /\ 0 < allowed_key_sizes_count d
      /\ Forall (fun k => k = 16 \/ k = 24 \/ k = 32) (allowed_key_sizes d)
      /\ tag_length d = 16
      /\ (iv_length d = 12 \/ iv_length d = 13))
  /\ (forall d d',
         d = aead_chacha20 \/ (exists mode, aead_aes mode = Some d) ->
         d' = aead_chacha20 \/ (exists mode, aead_aes mode = Some d') ->
         agid d = agid d' -> d = d')
  /\ aead_aes None = None.
Proof.
  assert (Hcases : forall d,
             d = aead_chacha20 \/ (exists mode, aead_aes mode = Some d) ->
             d = AEAD_CHACHA20_MODE \/ d = AEAD_AES_GCM_MODE \/ d = AEAD_AES_CCM_MODE).
  { intros d [-> | (mode & Hd)]; [left; reflexivity | right].
    apply (aead_aes_returns mode). exact Hd. }
  split; [|split; [|reflexivity]].
  - intros d Hd. destruct (Hcases d Hd) as [-> | [-> | ->]];
      (split; [reflexivity|]); (split; [reflexivity|]);
      (split; [cbn; repeat (apply Forall_cons; [auto|]); apply Forall_nil|]);
      (split; [reflexivity|]); cbn; auto.
  - intros d d' Hd Hd'.
    destruct (Hcases d Hd) as [-> | [-> | ->]];
      destruct (Hcases d' Hd') as [-> | [-> | ->]];
      cbn; intros Hagid; try reflexivity; discriminate Hagid.
Qed.

Lemma aead_descriptors_are_consistent_witness :
  exists d, aead_aes (Some "CCM"%string) = Some d
            /\ allowed_key_sizes_count d = 3 /\ iv_length d = 13.
Proof.
  destruct aead_descriptors_are_consistent as (Hshape & _ & _).
  eexists. split; [reflexivity|].
  destruct (Hshape AEAD_AES_CCM_MODE
              (or_intror (ex_intro _ (Some "CCM"%string) eq_refl)))
    as (Hcount & _). rewrite Hcount. split; reflexivity.
Defined.

(** ** The unchecked sum of [cbuffer_write] *)

Lemma observe_returns rc buffer h' :
  corrupted h' = false ->
  observe (Some ((rc, buffer), h')) = Returns rc buffer h'.
Proof. intros Hclean. unfold observe. rewrite Hclean. reflexivity. Qed.

(** When the sum wraps, the capacity asked for is below the length, nothing
    is allocated, and the copy that follows leaves the block. *)
Lemma write_wrapped fuel b src src_len h :
  wf b -> is_size_t src_len -> src_len <> 0 -> (65 <= fuel)%nat ->
  2 ^ SIZE_WIDTH <= byte_length b + src_len ->
  size_t_wrap (byte_length b + src_len) = byte_length b + src_len - 2 ^ SIZE_WIDTH
  /\ 0 <= byte_length b + src_len - 2 ^ SIZE_WIDTH < byte_length b
  /\ cbuffer_ensure_capacity fuel (Some b)
       (byte_length b + src_len - 2 ^ SIZE_WIDTH) h = Some ((0, Some b), h)
  /\ snd (memcpy (data b) (byte_length b) src src_len) = false
  /\ observe (cbuffer_write fuel (Some b) (Some src) src_len h) = Undefined.
Proof.
  intros Hwf Hsz Hnz Hfuel Hwrap.
  pose proof Hwf as (Hinv & Hcap & Hblock).
  unfold invariant, is_size_t in *.
  set (wrapped := byte_length b + src_len - 2 ^ SIZE_WIDTH).
  assert (Htr : size_t_wrap (byte_length b + src_len) = wrapped).
  { unfold size_t_wrap, wrapped.
    rewrite <- (Z.mod_add _ (-1)) by lia.
    rewrite Z.mod_small; lia. }
  assert (Hsmall : 0 <= wrapped < byte_length b) by (unfold wrapped; lia).
  assert (Hout : snd (memcpy (data b) (byte_length b) src src_len) = false).
  { unfold memcpy. cbn [snd]. apply andb_false_iff. left.
    apply Z.leb_gt. lia. }
  split; [exact Htr|]. split; [exact Hsmall|].
  split; [apply ensure_capacity_enough; lia|]. split; [exact Hout|].
  destruct (write_cases fuel b src src_len h Hwf Hsz Hnz Hfuel)
    as [(h' & _ & Hgrow & _) | (b1 & h1 & _ & _ & Hsame & _ & _ & _ & _ & _ & Hrun)];
    rewrite Htr in *.
  - lia.
  - destruct (Hsame ltac:(lia)) as [-> ->].
    rewrite Hrun. unfold observe. cbn [corrupted].
    rewrite Hout, orb_true_r. reflexivity.
Qed.

(** C10, as the code has it.  [cbuffer_write] adds [src_len] to the length
    in [size_t] arithmetic and checks nothing.  When the sum wraps, the
    capacity it asks [cbuffer_ensure_capacity] for is the wrapped sum, below
    the present length, so that call returns 0 and allocates nothing; the
    copy of [src_len] bytes that follows leaves the block, and the write has
    no defined result or length.  A write of bytes the source holds whose
    sum does not wrap returns; unless its reallocation fails the result is
    [(int) src_len], which differs from [src_len] above [INT_MAX]. *)
Theorem write_unchecked_sum fuel b src src_len h :
  wf b -> is_size_t src_len -> src_len <> 0 -> (65 <= fuel)%nat ->
  (INT_MAX < src_len -> to_int src_len <> src_len)
  /\ (byte_length b + src_len < 2 ^ SIZE_WIDTH ->
      src_len <= Z.of_nat (length src) -> corrupted h = false ->
      (exists h',
          observe (cbuffer_write fuel (Some b) (Some src) src_len h)
          = Returns (-1) (Some b) h'
          /\ capacity b < byte_length b + src_len
          /\ fst (next_request h) = false)
      \/ (exists b' h',
             observe (cbuffer_write fuel (Some b) (Some src) src_len h)
             = Returns (to_int src_len) (Some b') h'
             /\ byte_length b' = byte_length b + src_len))
  /\ (2 ^ SIZE_WIDTH <= byte_length b + src_len ->
      size_t_wrap (byte_length b + src_len)
      = byte_length b + src_len - 2 ^ SIZE_WIDTH
      /\ 0 <= byte_length b + src_len - 2 ^ SIZE_WIDTH < byte_length b
      /\ cbuffer_ensure_capacity fuel (Some b)
           (byte_length b + src_len - 2 ^ SIZE_WIDTH) h = Some ((0, Some b), h)
      /\ snd (memcpy (data b) (byte_length b) src src_len) = false
      /\ observe (cbuffer_write fuel (Some b) (Some src) src_len h) = Undefined).
Proof.
  intros Hwf Hsz Hnz Hfuel. split; [|split].
  - intros Hbig. pose proof (to_int_range src_len). lia.
  - intros Hsum Hsrc Hclean.
    assert (Hpos : 0 < src_len) by (unfold is_size_t in Hsz; lia).
    destruct (Z.le_gt_cases (byte_length b + src_len) (capacity b)) as [Hfit | Hgrow].
    + right.
      destruct (write_succeeds fuel b src src_len h Hwf Hfuel Hpos Hsrc Hsum
                  ltac:(lia)) as (b' & h' & Hrun & _ & Hlen & _ & _ & Hcor & _).
      exists b', h'. rewrite Hrun. split; [|exact Hlen].
      apply observe_returns. congruence.
    + destruct (fst (next_request h)) eqn:Hok.
      * right.
        destruct (write_succeeds fuel b src src_len h Hwf Hfuel Hpos Hsrc Hsum
                    ltac:(intros _; exact Hok))
          as (b' & h' & Hrun & _ & Hlen & _ & _ & Hcor & _).
        exists b', h'. rewrite Hrun. split; [|exact Hlen].
        apply observe_returns. congruence.
      * left.
        assert (Htr : size_t_wrap (byte_length b + src_len) = byte_length b + src_len).
        { apply size_t_wrap_small. destruct Hwf as (Hinv & _).
          unfold invariant, is_size_t in *. lia. }
        destruct (write_cases fuel b src src_len h Hwf Hsz Hnz Hfuel)
          as [(h' & Hens & _ & _ & Hrun)
             | (b1 & h1 & _ & Halloc & _)]; rewrite Htr in *.
        -- exists h'. rewrite Hrun. split; [|split; [exact Hgrow | reflexivity]].
           apply observe_returns.
           destruct (ensure_capacity_grows fuel b (byte_length b + src_len) h Hwf
                       ltac:(rewrite <- Htr; apply size_t_wrap_range) Hfuel Hgrow)
             as (target & _ & _ & _ & Hens').
           rewrite Hens, Hok in Hens'. injection Hens' as ->.
           destruct (next_request_keeps h) as [_ ->]. exact Hclean.
        -- rewrite (Halloc Hgrow) in Hok. discriminate.
  - intros Hwrap. apply write_wrapped; assumption.
Qed.

Lemma write_unchecked_sum_witness :
  wf (buffer_of [7; 8; 9])
  /\ is_size_t (2 ^ 64 - 1)
  /\ 2 ^ SIZE_WIDTH <= byte_length (buffer_of [7; 8; 9]) + (2 ^ 64 - 1)
  /\ to_int (2 ^ 64 - 1) <> 2 ^ 64 - 1
  /\ cbuffer_ensure_capacity 65 (Some (buffer_of [7; 8; 9])) 2 quiet_heap
     = Some ((0, Some (buffer_of [7; 8; 9])), quiet_heap)
  /\ observe (cbuffer_write 65 (Some (buffer_of [7; 8; 9])) (Some [Byte.x01])
                (2 ^ 64 - 1) quiet_heap) = Undefined.
Proof.
  assert (Hwf : wf (buffer_of [7; 8; 9])) by concrete.
  assert (Hsz : is_size_t (2 ^ 64 - 1)) by concrete.
  assert (Hwrap : 2 ^ SIZE_WIDTH <= byte_length (buffer_of [7; 8; 9]) + (2 ^ 64 - 1))
    by concrete.
  destruct (write_unchecked_sum 65 (buffer_of [7; 8; 9]) [Byte.x01] (2 ^ 64 - 1)
              quiet_heap Hwf Hsz ltac:(lia) (le_n 65)) as (Hcast & _ & Hsum).
  destruct (Hsum Hwrap) as (_ & _ & Hens & _ & Hobs).
  repeat (split; [assumption|]).
  split; [apply Hcast; concrete|].
  split; [exact Hens | exact Hobs].
Defined.

(** A write of [SIZE_MAX] bytes to a buffer holding three: the sum wraps to
    2, the capacity request for 2 bytes succeeds without growing, and the
    call has no result, neither a length of 2 nor anything else. *)
Lemma write_wrapped_sum_has_no_result :
  size_t_wrap (byte_length (buffer_of [7; 8; 9]) + (2 ^ 64 - 1)) = 2
  /\ cbuffer_ensure_capacity 65 (Some (buffer_of [7; 8; 9])) 2 quiet_heap
     = Some ((0, Some (buffer_of [7; 8; 9])), quiet_heap)
  /\ snd (memcpy (data (buffer_of [7; 8; 9])) (byte_length (buffer_of [7; 8; 9]))
            [Byte.x01] (2 ^ 64 - 1)) = false
  /\ observe (cbuffer_write 65 (Some (buffer_of [7; 8; 9])) (Some [Byte.x01])
                (2 ^ 64 - 1) quiet_heap) = Undefined
  /\ forall rc b' h',
      observe (cbuffer_write 65 (Some (buffer_of [7; 8; 9])) (Some [Byte.x01])
                 (2 ^ 64 - 1) quiet_heap) <> Returns rc b' h'.
Proof.
  assert (Hwf : wf (buffer_of [7; 8; 9])) by concrete.
  assert (Hsz : is_size_t (2 ^ 64 - 1)) by concrete.
  destruct (write_wrapped 65 (buffer_of [7; 8; 9]) [Byte.x01] (2 ^ 64 - 1) quiet_heap
              Hwf Hsz ltac:(lia) (le_n 65) ltac:(concrete))
    as (Htr & _ & Hens & Hout & Hobs).
  split; [exact Htr|]. split; [exact Hens|]. split; [exact Hout|].
  split; [exact Hobs|]. intros rc b' h'. rewrite Hobs. discriminate.
Defined.
